(** * Automatic table of contents: heading filter, depth normalisation,
      markdown builders and the foldable tree renderer.

    A shallow embedding of [src/headings.ts] and of the foldable rendering
    path of [main.ts] ([renderFoldableList], [wikitextToHtml], [escapeHtml]),
    followed by the properties the specification states about them.

    Conventions of the embedding:
    - a JavaScript [number] holding a heading level or an option is a [Z];
      the only non-integer value the code can produce, [Math.min()] of no
      argument, is [PosInfinity];
    - a depth is an array length minus one, a [nat];
    - a JavaScript string is a [string]; an [ascii] stands for one code unit;
    - [string | null] is [option string];
    - an array used as a stack is a list whose head is the top of the stack;
    - the objects that [buildTree] allocates and mutates through its stack
      live in an explicit store, addressed by allocation index. *)

From Stdlib Require Import ZArith List String Ascii Bool Lia Arith.
Import ListNotations.

Set Warnings "-register-all".

Local Open Scope string_scope.
Local Open Scope list_scope.

(** ** Data model *)

(** Obsidian's [HeadingCache]: the label, the raw level and an opaque
    position (never inspected by the code; kept so that two occurrences of
    one label stay distinct). *)
Record HeadingCache : Type := mkHeading {
  heading : string;
  level : Z;
  position : nat
}.

Inductive Style : Type := nestedList | nestedOrderedList | inlineFirstLevel.

(** A compiled pattern is only ever used through its [test] method. *)
Definition RegExp : Type := string -> bool.

(** The fields of [TableOfContentsOptions] that the embedded code reads. *)
Record TableOfContentsOptions : Type := mkOptions {
  title : string;
  style : Style;
  minLevel : Z;
  maxLevel : Z;
  include : option RegExp;
  exclude : option RegExp;
  hideWhenEmpty : bool
}.

(** JavaScript truthiness of an optional object. *)
Definition truthy {A : Type} (o : option A) : bool :=
  match o with Some _ => true | None => false end.

Record FilteredHeading : Type := mkFiltered {
  fh_heading : HeadingCache;
  depth : nat
}.

(** The value of [Math.min(...levels)]. *)
Inductive JsNumber : Type := Finite (z : Z) | PosInfinity.

Definition jsMin (a b : JsNumber) : JsNumber :=
  match a, b with
  | Finite x, Finite y => Finite (Z.min x y)
  | Finite x, PosInfinity => Finite x
  | PosInfinity, _ => b
  end.

Definition mathMin (levels : list Z) : JsNumber :=
  fold_right (fun z acc => jsMin (Finite z) acc) PosInfinity levels.

(** [l < m] and [l === m] for an integer [l] and a [Math.min] result. *)
Definition ltNumber (l : Z) (m : JsNumber) : bool :=
  match m with Finite z => (l <? z)%Z | PosInfinity => true end.

Definition eqNumber (l : Z) (m : JsNumber) : bool :=
  match m with Finite z => (l =? z)%Z | PosInfinity => false end.

(** [options.minLevel > 0 ? options.minLevel : Math.min(...levels)] *)
Definition resolveMinLevel (options : TableOfContentsOptions)
    (headings : list HeadingCache) : JsNumber :=
  if (minLevel options >? 0)%Z then Finite (minLevel options)
  else mathMin (map level headings).

(** [String.prototype.repeat], [Array.prototype.join]. *)
Fixpoint repeatString (s : string) (n : nat) : string :=
  match n with
  | O => EmptyString
  | S k => String.append s (repeatString s k)
  end.

Definition join (sep : string) (items : list string) : string :=
  String.concat sep items.

Definition tab : string := String (ascii_of_nat 9) EmptyString.
Definition newline : string := String (ascii_of_nat 10) EmptyString.

(** [array.map((x, i) => f x i)] *)
Fixpoint mapIndexed {A B : Type} (f : A -> nat -> B) (i : nat) (l : list A) : list B :=
  match l with
  | [] => []
  | x :: rest => f x i :: mapIndexed f (S i) rest
  end.

(** ** headings.ts *)

Section Headings.

(** [isHeadingAllowed] and [getFormattedMarkdownHeading] are imported from
    [markdown.ts]; the code below is parametric in them. *)
Variable isHeadingAllowed : string -> TableOfContentsOptions -> bool.
Variable getFormattedMarkdownHeading : string -> TableOfContentsOptions -> string.

(** One iteration of the loop of [getFilteredHeadings]: the value of
    [unallowedLevel] after the iteration, and whether the iteration reached
    [filteredHeadings.push(heading)] (every [continue] answers [false]). *)
Definition filterStep (options : TableOfContentsOptions) (minLvl : JsNumber)
    (unallowedLevel : Z) (h : HeadingCache) : Z * bool :=
  if (unallowedLevel >? 0)%Z && (level h >? unallowedLevel)%Z
  then (unallowedLevel, false)
  else
    let unallowedLevel :=
      if (level h <=? unallowedLevel)%Z then 0%Z else unallowedLevel in
    if negb (isHeadingAllowed (heading h) options) then
      (if truthy (exclude options) then level h else unallowedLevel, false)
    else if ltNumber (level h) minLvl then (unallowedLevel, false)
    else if (maxLevel options >? 0)%Z && (level h >? maxLevel options)%Z
    then (unallowedLevel, false)
    else if Nat.eqb (String.length (heading h)) 0 then (unallowedLevel, false)
    else (unallowedLevel, true).

(** The [for] loop, threading [unallowedLevel] and [filteredHeadings]. *)
Fixpoint filterLoop (options : TableOfContentsOptions) (minLvl : JsNumber)
    (unallowedLevel : Z) (filteredHeadings : list HeadingCache)
    (headings : list HeadingCache) : Z * list HeadingCache :=
  match headings with
  | [] => (unallowedLevel, filteredHeadings)
  | h :: rest =>
      let '(u, pushed) := filterStep options minLvl unallowedLevel h in
      filterLoop options minLvl u
        (if pushed then filteredHeadings ++ [h] else filteredHeadings) rest
  end.

(** The [while] loop of [computeNormalizedDepths]. *)
Fixpoint popLevels (levelStack : list Z) (lvl : Z) : list Z :=
  match levelStack with
  | top :: below =>
      if (top >=? lvl)%Z then popLevels below lvl else levelStack
  | [] => []
  end.

Fixpoint depthsLoop (levelStack : list Z) (depths : list nat)
    (headings : list HeadingCache) : list nat :=
  match headings with
  | [] => depths
  | h :: rest =>
      let levelStack := level h :: popLevels levelStack (level h) in
      depthsLoop levelStack (depths ++ [List.length levelStack - 1]) rest
  end.

Definition computeNormalizedDepths (headings : list HeadingCache) : list nat :=
  depthsLoop [] [] headings.

(** The headings that survive the loop. *)
Definition survivingHeadings (headings : list HeadingCache)
    (options : TableOfContentsOptions) : list HeadingCache :=
  snd (filterLoop options (resolveMinLevel options headings) 0%Z [] headings).

Definition getFilteredHeadings (headings : list HeadingCache)
    (options : TableOfContentsOptions) : list FilteredHeading :=
  let filteredHeadings := survivingHeadings headings options in
  let depths := computeNormalizedDepths filteredHeadings in
  mapIndexed (fun h i => mkFiltered h (nth i depths 0)) 0 filteredHeadings.

Definition listLine (prefix : string) (options : TableOfContentsOptions)
    (item : FilteredHeading) : string :=
  String.append (repeatString tab (depth item))
    (String.append prefix
       (String.append " "
          (getFormattedMarkdownHeading (heading (fh_heading item)) options))).

Definition getMarkdownListFromHeadings (headings : list HeadingCache)
    (isOrdered : bool) (options : TableOfContentsOptions) : option string :=
  let prefix := if isOrdered then "1."%string else "-"%string in
  let filtered := getFilteredHeadings headings options in
  let lines := map (listLine prefix options) filtered in
  if Nat.ltb 0 (List.length lines) then Some (join newline lines) else None.

Definition getMarkdownNestedListFromHeadings (headings : list HeadingCache)
    (options : TableOfContentsOptions) : option string :=
  getMarkdownListFromHeadings headings false options.

Definition getMarkdownNestedOrderedListFromHeadings (headings : list HeadingCache)
    (options : TableOfContentsOptions) : option string :=
  getMarkdownListFromHeadings headings true options.

Definition getMarkdownInlineFirstLevelFromHeadings (headings : list HeadingCache)
    (options : TableOfContentsOptions) : option string :=
  let minLvl := resolveMinLevel options headings in
  let items :=
    map (fun h => getFormattedMarkdownHeading (heading h) options)
      (filter (fun h => isHeadingAllowed (heading h) options)
         (filter (fun h => Nat.ltb 0 (String.length (heading h)))
            (filter (fun h => eqNumber (level h) minLvl) headings))) in
  if Nat.ltb 0 (List.length items) then Some (join " | " items) else None.

Definition markdownHandlersByStyle (s : Style)
    : list HeadingCache -> TableOfContentsOptions -> option string :=
  match s with
  | nestedList => getMarkdownNestedListFromHeadings
  | nestedOrderedList => getMarkdownNestedOrderedListFromHeadings
  | inlineFirstLevel => getMarkdownInlineFirstLevelFromHeadings
  end.

Definition noHeadingsNotice : string := "_Table of contents: no headings found_".

Definition getMarkdownFromHeadings (headings : list HeadingCache)
    (options : TableOfContentsOptions) : string :=
  let titleMarkdown :=
    if Nat.ltb 0 (String.length (title options)) then
      let titleSeparator :=
        match style options with
        | inlineFirstLevel => " "%string
        | _ => newline
        end in
      String.append (title options) titleSeparator
    else EmptyString in
  match markdownHandlersByStyle (style options) headings options with
  | None =>
      if hideWhenEmpty options then EmptyString
      else String.append titleMarkdown noHeadingsNotice
  | Some markdownHeadings => String.append titleMarkdown markdownHeadings
  end.

End Headings.

(** ** main.ts: the foldable rendering path *)

(** What [buildTree] returns, read as a value: a forest of labelled nodes. *)
Inductive TreeNode : Type :=
  Node (text : string) (children : list TreeNode).

(** While [buildTree] runs, a [TreeNode] is a mutable object that is reachable
    both from [roots] (or from its parent's [children] array) and from the
    stack.  Objects live in a store; a reference is the allocation index. *)
Definition Ref : Type := nat.

Record NodeObject : Type := mkObject {
  obj_text : string;
  obj_children : list Ref
}.

Record StackEntry : Type := mkEntry {
  se_node : Ref;
  se_depth : nat
}.

Record BuildState : Type := mkState {
  store : list NodeObject;
  roots : list Ref;
  stack : list StackEntry
}.

Definition initialState : BuildState := mkState [] [] [].

Fixpoint updateAt {A : Type} (f : A -> A) (i : nat) (l : list A) {struct l}
    : list A :=
  match l, i with
  | [], _ => []
  | x :: rest, O => f x :: rest
  | x :: rest, S k => x :: updateAt f k rest
  end.

(** [parent.children.push(child)] on the object behind [parent]. *)
Definition pushChild (parent child : Ref) (objects : list NodeObject)
    : list NodeObject :=
  updateAt (fun o => mkObject (obj_text o) (obj_children o ++ [child])) parent objects.

(** The [while] loop of [buildTree]. *)
Fixpoint popStack (entries : list StackEntry) (d : nat) : list StackEntry :=
  match entries with
  | top :: below =>
      if Nat.leb d (se_depth top) then popStack below d else entries
  | [] => []
  end.

Fixpoint allSome {A : Type} (l : list (option A)) : option (list A) :=
  match l with
  | [] => Some []
  | Some x :: rest =>
      match allSome rest with Some xs => Some (x :: xs) | None => None end
  | None :: _ => None
  end.

(** The tree below a reference.  [None] when the fuel is used up or a
    reference dangles; neither happens on a store that [buildTree] made. *)
Fixpoint readNode (fuel : nat) (objects : list NodeObject) (r : Ref)
    : option TreeNode :=
  match fuel with
  | O => None
  | S fuel' =>
      match nth_error objects r with
      | None => None
      | Some o =>
          match allSome (map (readNode fuel' objects) (obj_children o)) with
          | Some ts => Some (Node (obj_text o) ts)
          | None => None
          end
      end
  end.

Definition readForest (st : BuildState) : option (list TreeNode) :=
  allSome (map (readNode (List.length (store st)) (store st)) (roots st)).

(** The DOM that [renderNodes] creates.  Markup assigned through [innerHTML]
    stays an unparsed string. *)
Inductive Dom : Type :=
| Element (tag : string) (attributes : list (string * string)) (content : list Dom)
| RawHtml (markup : string).

(** The regular expression of [wikitextToHtml] is a sequence of literals and
    of capturing groups of the form [([^...]+)]. *)
Inductive RegexItem : Type :=
| Lit (s : string)
| CapturePlusNot (excluded : list ascii).

Fixpoint stripPrefix (p s : string) : option string :=
  match p, s with
  | EmptyString, _ => Some s
  | String a p', String b s' =>
      if Ascii.eqb a b then stripPrefix p' s' else None
  | String _ _, EmptyString => None
  end.

Definition inClass (excluded : list ascii) (c : ascii) : bool :=
  negb (existsb (Ascii.eqb c) excluded).

Section Matcher.
Variable R : Type.

(** Greedy [+] over a negated class, with backtracking: take one more
    character when the rest of the pattern still matches afterwards,
    otherwise hand the group read so far to the continuation. *)
Fixpoint matchPlus (excluded : list ascii) (k : string -> string -> option R)
    (group : string) (s : string) : option R :=
  match s with
  | EmptyString => None
  | String c s' =>
      if inClass excluded c then
        let group' := String.append group (String c EmptyString) in
        match matchPlus excluded k group' s' with
        | Some r => Some r
        | None => k group' s'
        end
      else None
  end.
End Matcher.

Arguments matchPlus {R} excluded k group s.

(** Matching a pattern at the start of [s]: the captured groups and the text
    after the match. *)
Fixpoint matchItems (items : list RegexItem) (groups : list string) (s : string)
    : option (list string * string) :=
  match items with
  | [] => Some (groups, s)
  | Lit l :: items' =>
      match stripPrefix l s with
      | Some s' => matchItems items' groups s'
      | None => None
      end
  | CapturePlusNot excluded :: items' =>
      matchPlus excluded
        (fun g s' => matchItems items' (groups ++ [g]) s') EmptyString s
  end.

(** [text.replace(/.../g, replacer)] for a pattern that matches no empty
    string: at each position, leftmost match first. *)
Fixpoint replaceLoop (fuel : nat) (pattern : list RegexItem)
    (replacer : list string -> string) (text : string) : string :=
  match fuel with
  | O => text
  | S fuel' =>
      match matchItems pattern [] text with
      | Some (groups, rest) =>
          String.append (replacer groups) (replaceLoop fuel' pattern replacer rest)
      | None =>
          match text with
          | EmptyString => EmptyString
          | String c rest => String c (replaceLoop fuel' pattern replacer rest)
          end
      end
  end.

Definition replaceGlobal (pattern : list RegexItem)
    (replacer : list string -> string) (text : string) : string :=
  replaceLoop (S (String.length text)) pattern replacer text.

(** [text.replaceAll(c, by)] for a one-character search string. *)
Fixpoint replaceAllChar (c : ascii) (by_ : string) (text : string) : string :=
  match text with
  | EmptyString => EmptyString
  | String a rest =>
      if Ascii.eqb a c then String.append by_ (replaceAllChar c by_ rest)
      else String a (replaceAllChar c by_ rest)
  end.

Definition ampersand : ascii := ascii_of_nat 38.
Definition lessThan : ascii := ascii_of_nat 60.
Definition greaterThan : ascii := ascii_of_nat 62.
Definition doubleQuote : ascii := ascii_of_nat 34.
Definition openBracket : ascii := ascii_of_nat 91.
Definition closeBracket : ascii := ascii_of_nat 93.
Definition pipe : ascii := ascii_of_nat 124.
Definition quoteString : string := String doubleQuote EmptyString.

Definition escapeHtml (text : string) : string :=
  replaceAllChar doubleQuote "&quot;"
    (replaceAllChar greaterThan "&gt;"
       (replaceAllChar lessThan "&lt;"
          (replaceAllChar ampersand "&amp;" text))).

(** [/\[\[#([^\]|]+)\|([^\]]+)\]\]/] *)
Definition linkPattern : list RegexItem :=
  [ Lit "[[#"; CapturePlusNot [closeBracket; pipe]; Lit "|";
    CapturePlusNot [closeBracket]; Lit "]]" ].

(** The anchor element that replaces one link. *)
Definition anchor (link display : string) : string :=
  String.append "<a class="
    (String.append quoteString
       (String.append "internal-link"
          (String.append quoteString
             (String.append " data-href="
                (String.append quoteString
                   (String.append "#"
                      (String.append (escapeHtml link)
                         (String.append quoteString
                            (String.append ">"
                               (String.append (escapeHtml display) "</a>")))))))))).

Definition linkReplacer (groups : list string) : string :=
  match groups with
  | [link; display] => anchor link display
  | _ => EmptyString
  end.

Definition wikitextToHtml (text : string) : string :=
  replaceGlobal linkPattern linkReplacer text.

Section Foldable.
Variable getFormattedMarkdownHeading : string -> TableOfContentsOptions -> string.
Variable options : TableOfContentsOptions.

(** One iteration of the loop of [buildTree]. *)
Definition buildStep (st : BuildState) (item : FilteredHeading) : BuildState :=
  let text := getFormattedMarkdownHeading (heading (fh_heading item)) options in
  let node : Ref := List.length (store st) in
  let objects := store st ++ [mkObject text []] in
  let entries := popStack (stack st) (depth item) in
  match entries with
  | [] =>
      mkState objects (roots st ++ [node])
        (mkEntry node (depth item) :: entries)
  | top :: _ =>
      mkState (pushChild (se_node top) node objects) (roots st)
        (mkEntry node (depth item) :: entries)
  end.

Definition buildTree (flat : list FilteredHeading) : option (list TreeNode) :=
  readForest (fold_left buildStep flat initialState).

Definition listTag (isOrdered : bool) : string :=
  if isOrdered then "ol"%string else "ul"%string.

(** The [li] that the loop of [renderNodes] makes for one node. *)
Fixpoint renderNode (isOrdered : bool) (n : TreeNode) : Dom :=
  match n with
  | Node text children =>
      match children with
      | [] => Element "li" [] [RawHtml (wikitextToHtml text)]
      | _ :: _ =>
          Element "li" []
            [Element "details" [("open"%string, EmptyString)]
               [Element "summary" [] [RawHtml (wikitextToHtml text)];
                Element (listTag isOrdered) []
                  (map (renderNode isOrdered) children)]]
      end
  end.

(** [renderNodes(parent, nodes)]: the list element appended to [parent]. *)
Definition renderNodes (isOrdered : bool) (nodes : list TreeNode) : Dom :=
  Element (listTag isOrdered) [] (map (renderNode isOrdered) nodes).

Definition renderFoldableList (items : list FilteredHeading) (isOrdered : bool)
    : option Dom :=
  match buildTree items with
  | Some tree => Some (renderNodes isOrdered tree)
  | None => None
  end.
End Foldable.

(** ** Vocabulary of the specification *)

(** Modelled from the spec: [isHeadingAllowed] of [markdown.ts], which is not
    among the sources.  The specification describes it as one include-or-exclude
    pattern test on the label: an include pattern keeps the labels it matches,
    an exclude pattern drops the labels it matches, and a configuration with
    neither keeps everything.  Only the concrete scenarios below use it; every
    general statement is proved for an arbitrary [isHeadingAllowed]. *)
Definition isHeadingAllowedSpec (value : string) (options : TableOfContentsOptions)
    : bool :=
  match include options with
  | Some pattern => pattern value
  | None =>
      match exclude options with
      | Some pattern => negb (pattern value)
      | None => true
      end
  end.

(** A depth sequence is gap-free when it starts at 0 and never rises by more
    than one from one element to the next. *)
Definition gapFree (depths : list nat) : Prop :=
  (forall d, nth_error depths 0 = Some d -> d = 0) /\
  (forall i a b,
      nth_error depths i = Some a -> nth_error depths (S i) = Some b -> b <= S a).

(** The same, by recursion: every depth is at most [bound], and the bound for
    the next element is one more than the current depth. *)
Fixpoint risesByOne (bound : nat) (depths : list nat) : Prop :=
  match depths with
  | [] => True
  | d :: rest => d <= bound /\ risesByOne (S d) rest
  end.

(** [Subsequence small big]: [small] is [big] with some elements removed. *)
Inductive Subsequence {A : Type} : list A -> list A -> Prop :=
| sub_nil : Subsequence [] []
| sub_skip : forall x small big, Subsequence small big -> Subsequence small (x :: big)
| sub_keep : forall x small big, Subsequence small big -> Subsequence (x :: small) (x :: big).

(** The elements of [l] whose flag is set, in order. *)
Fixpoint restrict {A : Type} (flags : list bool) (l : list A) : list A :=
  match flags, l with
  | true :: flags', x :: rest => x :: restrict flags' rest
  | false :: flags', _ :: rest => restrict flags' rest
  | _, _ => []
  end.

(** Pre-order listing of a forest: each label with the number of nodes that
    contain it. *)
Fixpoint flattenNode (nesting : nat) (n : TreeNode) : list (string * nat) :=
  match n with
  | Node text children =>
      (text, nesting) :: flat_map (flattenNode (S nesting)) children
  end.

Definition flattenForest (nesting : nat) (forest : list TreeNode)
    : list (string * nat) :=
  flat_map (flattenNode nesting) forest.

(** HTML escaping, one character at a time. *)
Definition escapeChar (c : ascii) : string :=
  if Ascii.eqb c ampersand then "&amp;"
  else if Ascii.eqb c lessThan then "&lt;"
  else if Ascii.eqb c greaterThan then "&gt;"
  else if Ascii.eqb c doubleQuote then "&quot;"
  else String c EmptyString.

Fixpoint escapeEach (text : string) : string :=
  match text with
  | EmptyString => EmptyString
  | String c rest => String.append (escapeChar c) (escapeEach rest)
  end.

(** [occurs c s]: the character [c] occurs in [s]. *)
Fixpoint occurs (c : ascii) (s : string) : bool :=
  match s with
  | EmptyString => false
  | String a rest => Ascii.eqb a c || occurs c rest
  end.

(** The filter's verdicts, heading by heading: whether each iteration of the
    loop of [getFilteredHeadings] reached the [push], and the four tests that
    a heading meets on its way there. *)
Section FilterVocabulary.
Variable isHeadingAllowed : string -> TableOfContentsOptions -> bool.

Fixpoint filterVerdicts (options : TableOfContentsOptions) (minLvl : JsNumber)
    (unallowedLevel : Z) (headings : list HeadingCache) : list bool :=
  match headings with
  | [] => []
  | h :: rest =>
      let '(u, pushed) := filterStep isHeadingAllowed options minLvl unallowedLevel h in
      pushed :: filterVerdicts options minLvl u rest
  end.

Definition passesTests (options : TableOfContentsOptions) (minLvl : JsNumber)
    (h : HeadingCache) : bool :=
  isHeadingAllowed (heading h) options
  && negb (ltNumber (level h) minLvl)
  && negb ((maxLevel options >? 0)%Z && (level h >? maxLevel options)%Z)
  && negb (Nat.eqb (String.length (heading h)) 0).

End FilterVocabulary.

(** The headings of the specification's scenarios. *)
Definition hA : HeadingCache := mkHeading "A" 1 0.
Definition hB : HeadingCache := mkHeading "B" 2 1.
Definition hC : HeadingCache := mkHeading "C" 3 2.
Definition hD : HeadingCache := mkHeading "D" 1 3.
Definition sampleABCD : list HeadingCache := [hA; hB; hC; hD].

Definition defaultOptions : TableOfContentsOptions :=
  mkOptions "" nestedList 0 0 None None false.

(** Three surviving headings of levels 1, 3 and 3; the inline scenario; a
    label with every special character and no link. *)
Definition levels133 : list HeadingCache :=
  [mkHeading "Title" 1 0; mkHeading "Deep one" 3 1; mkHeading "Deep two" 3 2].

Definition sampleACflat : list HeadingCache :=
  [mkHeading "A" 1 0; mkHeading "B" 2 1; mkHeading "C" 1 2].

Definition inlineOptions : TableOfContentsOptions :=
  mkOptions "" inlineFirstLevel 0 0 None None false.

Definition specialCharacters : string :=
  String.append "R&D <b> x > y "
    (String doubleQuote (String.append "quoted" (String doubleQuote EmptyString))).

(** [include: /^(A|C)$/] and [exclude: /^B$/], through their [test]. *)
Definition includeAC : TableOfContentsOptions :=
  mkOptions "" nestedList 0 0
    (Some (fun s => String.eqb s "A" || String.eqb s "C")) None false.

Definition excludeB : TableOfContentsOptions :=
  mkOptions "" nestedList 0 0 None (Some (fun s => String.eqb s "B")) false.

(** The link notation that [wikitextToHtml] translates: ["[[#"], a target,
    ["|"], a display text and ["]]"], here followed by the rest of the label.
    The target is a non-empty run free of ["]"] and ["|"], the display text a
    non-empty run free of ["]"]. *)
Fixpoint noneOf (excluded : list ascii) (s : string) : bool :=
  match s with
  | EmptyString => true
  | String c rest => inClass excluded c && noneOf excluded rest
  end.

Definition wikilink (target display rest : string) : string :=
  String.append "[[#"
    (String.append target
       (String.append "|"
          (String.append display (String.append "]]" rest)))).

Definition wellShaped (target display : string) : Prop :=
  target <> EmptyString /\ noneOf [closeBracket; pipe] target = true
  /\ display <> EmptyString /\ noneOf [closeBracket] display = true.

Definition startsWithLink (s : string) : Prop :=
  exists target display rest,
    wellShaped target display /\ s = wikilink target display rest.

Definition containsLink (s : string) : Prop :=
  exists before tail, s = String.append before tail /\ startsWithLink tail.

(** The markup of the anchor element, spelled out. *)
Definition anchorMarkup (escapedTarget escapedDisplay : string) : string :=
  String.append "<a class="
    (String (ascii_of_nat 34)
       (String.append "internal-link"
          (String (ascii_of_nat 34)
             (String.append " data-href="
                (String (ascii_of_nat 34)
                   (String.append "#"
                      (String.append escapedTarget
                         (String (ascii_of_nat 34)
                            (String.append ">"
                               (String.append escapedDisplay "</a>")))))))))).

(** A label cut into the pieces that the left-to-right scan of
    [wikitextToHtml] sees: single characters that are copied, and links. *)
Inductive Segment : Type :=
| Plain (c : ascii)
| Link (target display : string).

Fixpoint sourceOf (segments : list Segment) : string :=
  match segments with
  | [] => EmptyString
  | Plain c :: rest => String c (sourceOf rest)
  | Link target display :: rest => wikilink target display (sourceOf rest)
  end.

Fixpoint markupOf (segments : list Segment) : string :=
  match segments with
  | [] => EmptyString
  | Plain c :: rest => String c (markupOf rest)
  | Link target display :: rest =>
      String.append (anchorMarkup (escapeEach target) (escapeEach display))
        (markupOf rest)
  end.

(** Every link segment is well shaped, and a character is a segment of its
    own only where no link starts. *)
Fixpoint scanned (segments : list Segment) : Prop :=
  match segments with
  | [] => True
  | Plain c :: rest =>
      ~ startsWithLink (String c (sourceOf rest)) /\ scanned rest
  | Link target display :: rest => wellShaped target display /\ scanned rest
  end.

(** ** Reading the store of [buildTree] *)

(** [Reads objects lo hi r t]: the object behind [r] is the root of the tree
    [t], every object of the tree has its reference in [lo, hi), and children
    were allocated after their parent. *)
Inductive Reads (objects : list NodeObject) : nat -> nat -> Ref -> TreeNode -> Prop :=
| Reads_node : forall lo hi r text refs ts,
    lo <= r -> r < hi ->
    nth_error objects r = Some (mkObject text refs) ->
    ReadsAll objects (S r) hi refs ts ->
    Reads objects lo hi r (Node text ts)
with ReadsAll (objects : list NodeObject) : nat -> nat -> list Ref -> list TreeNode -> Prop :=
| ReadsAll_nil : forall lo hi, ReadsAll objects lo hi [] []
| ReadsAll_cons : forall lo hi r refs t ts,
    Reads objects lo hi r t ->
    ReadsAll objects lo hi refs ts ->
    ReadsAll objects lo hi (r :: refs) (t :: ts).

Scheme Reads_mut := Minimality for Reads Sort Prop
  with ReadsAll_mut := Minimality for ReadsAll Sort Prop.

Combined Scheme Reads_ReadsAll_ind from Reads_mut, ReadsAll_mut.

(** A node that is still on the stack, seen as a value: its label and the
    children that are complete, as references and as trees.  Its last child,
    when the node is not the top of the stack, is the next stack entry. *)
Record Frame : Type := mkFrame {
  fr_text : string;
  fr_refs : list Ref;
  fr_done : list TreeNode
}.

(** The trees that the open nodes stand for: [sub] are the trees that still
    go under the top frame. *)
Fixpoint plug (frames : list Frame) (sub : list TreeNode) : list TreeNode :=
  match frames with
  | [] => sub
  | f :: below => plug below [Node (fr_text f) (fr_done f ++ sub)]
  end.

(** [Spine objects hi open entries frames rootRefs doneRefs done]: the stack
    [entries] (top first) is a chain of last children that starts at the last
    root; each entry's object has the complete children of its frame followed
    by [open], the entry above it; the complete children of the top were
    allocated below [hi], those of any other entry before the entry above it;
    the roots are the complete roots [doneRefs], which read as [done],
    followed by the bottom entry. *)
Fixpoint Spine (objects : list NodeObject) (hi : nat) (open : list Ref)
    (entries : list StackEntry) (frames : list Frame)
    (rootRefs doneRefs : list Ref) (done : list TreeNode) : Prop :=
  match entries, frames with
  | [], [] => rootRefs = doneRefs ++ open /\ ReadsAll objects 0 hi doneRefs done
  | e :: below, f :: fbelow =>
      se_node e < hi
      /\ nth_error objects (se_node e)
         = Some (mkObject (fr_text f) (fr_refs f ++ open))
      /\ ReadsAll objects (S (se_node e)) hi (fr_refs f) (fr_done f)
      /\ Spine objects (se_node e) [se_node e] below fbelow rootRefs doneRefs done
  | _, _ => False
  end.

(** What a run of [buildTree] has built so far, in pre-order. *)
Definition Built (st : BuildState) (processed : list (string * nat)) : Prop :=
  exists frames doneRefs done,
    Spine (store st) (List.length (store st)) [] (stack st) frames
      (roots st) doneRefs done
    /\ flattenForest 0 (done ++ plug frames []) = processed.

(** The stored depths count the entries below: the stack is a path from a
    root, one level per entry. *)
Fixpoint depthsCount (entries : list StackEntry) : Prop :=
  match entries with
  | [] => True
  | e :: below => se_depth e = List.length below /\ depthsCount below
  end.

(** ** Vocabulary of the further properties *)

(** The level stack of [computeNormalizedDepths] after the loop has run over
    [headings], starting from [levelStack]. *)
Fixpoint levelStackAfter (levelStack : list Z) (headings : list HeadingCache)
    : list Z :=
  match headings with
  | [] => levelStack
  | h :: rest =>
      levelStackAfter (level h :: popLevels levelStack (level h)) rest
  end.

(** A stack of levels whose entries get strictly smaller from the top down. *)
Fixpoint descending (levelStack : list Z) : Prop :=
  match levelStack with
  | [] => True
  | top :: below => Forall (fun x => (x < top)%Z) below /\ descending below
  end.

(** The same heading with its level mapped through [f]. *)
Definition relevel (f : Z -> Z) (h : HeadingCache) : HeadingCache :=
  mkHeading (heading h) (f (level h)) (position h).

(** Two values of [unallowedLevel] act alike when they are equal or when
    neither is positive. *)
Definition alike (u1 u2 : Z) : Prop := u1 = u2 \/ ((u1 <= 0)%Z /\ (u2 <= 0)%Z).

(** A rejected heading of level 0 followed by a deeper heading. *)
Definition levelZeroSample : list HeadingCache :=
  [mkHeading "B" 0 0; mkHeading "C" 3 1].

(** The four characters that [escapeHtml] rewrites. *)
Definition special (c : ascii) : bool :=
  Ascii.eqb c ampersand || Ascii.eqb c lessThan
  || Ascii.eqb c greaterThan || Ascii.eqb c doubleQuote.

Fixpoint hasSpecial (s : string) : bool :=
  match s with
  | EmptyString => false
  | String c rest => special c || hasSpecial rest
  end.

(** A stack of [buildTree] whose stored depths get strictly smaller from the
    top down. *)
Fixpoint entriesDescending (entries : list StackEntry) : Prop :=
  match entries with
  | [] => True
  | e :: below =>
      Forall (fun x => se_depth x < se_depth e) below /\ entriesDescending below
  end.

(** The number of elements with a given tag in a piece of the DOM. *)
Fixpoint countTag (tag : string) (d : Dom) : nat :=
  match d with
  | Element t _ content =>
      (if String.eqb t tag then 1 else 0) + list_sum (map (countTag tag) content)
  | RawHtml _ => 0
  end.

(** The number of places where a sequence rises from one element to the
    next. *)
Fixpoint countRises (l : list nat) : nat :=
  match l with
  | a :: (b :: _) as rest => (if Nat.ltb a b then 1 else 0) + countRises rest
  | _ => 0
  end.

(** The strings assigned through [innerHTML], in document order. *)
Fixpoint rawMarkups (d : Dom) : list string :=
  match d with
  | Element _ _ content => flat_map rawMarkups content
  | RawHtml markup => [markup]
  end.

(** ** Properties of the heading filter *)

Section FilterProperties.
Variable isHeadingAllowed : string -> TableOfContentsOptions -> bool.

Lemma length_depthsLoop (hs : list HeadingCache) :
  forall levelStack depths,
    List.length (depthsLoop levelStack depths hs)
    = List.length depths + List.length hs.
Proof.
  induction hs as [|h rest IH]; intros levelStack depths; simpl.
  - lia.
  - rewrite IH, length_app. simpl. lia.
Qed.

Lemma length_computeNormalizedDepths (hs : list HeadingCache) :
  List.length (computeNormalizedDepths hs) = List.length hs.
Proof. unfold computeNormalizedDepths. now rewrite length_depthsLoop. Qed.

Lemma depthsLoop_acc (hs : list HeadingCache) :
  forall levelStack depths,
    depthsLoop levelStack depths hs = depths ++ depthsLoop levelStack [] hs.
Proof.
  induction hs as [|h rest IH]; intros levelStack depths; simpl.
  - now rewrite app_nil_r.
  - rewrite IH. rewrite (IH _ [_]). now rewrite <- app_assoc.
Qed.

Lemma depthsLoop_cons (h : HeadingCache) (rest : list HeadingCache)
    (levelStack : list Z) :
  depthsLoop levelStack [] (h :: rest)
  = List.length (popLevels levelStack (level h))
    :: depthsLoop (level h :: popLevels levelStack (level h)) [] rest.
Proof.
  simpl. rewrite depthsLoop_acc. simpl. now rewrite Nat.sub_0_r.
Qed.

Lemma length_popLevels (levelStack : list Z) (lvl : Z) :
  List.length (popLevels levelStack lvl) <= List.length levelStack.
Proof.
  induction levelStack as [|top below IH]; simpl; [lia|].
  destruct (top >=? lvl)%Z; simpl; lia.
Qed.

Lemma risesByOne_depthsLoop (hs : list HeadingCache) :
  forall levelStack,
    risesByOne (List.length levelStack) (depthsLoop levelStack [] hs).
Proof.
  induction hs as [|h rest IH]; intros levelStack.
  - exact I.
  - rewrite depthsLoop_cons. split.
    + apply length_popLevels.
    + apply (IH (level h :: popLevels levelStack (level h))).
Qed.

Lemma risesByOne_step (depths : list nat) :
  forall bound i a b,
    risesByOne bound depths ->
    nth_error depths i = Some a -> nth_error depths (S i) = Some b ->
    b <= S a.
Proof.
  induction depths as [|d rest IH]; intros bound i a b Hr Ha Hb.
  - destruct i; discriminate.
  - destruct Hr as [_ Hr]. destruct i as [|i]; simpl in Ha, Hb.
    + injection Ha as <-. destruct rest as [|d' rest']; [discriminate|].
      simpl in Hb. injection Hb as <-. exact (proj1 Hr).
    + exact (IH _ _ _ _ Hr Ha Hb).
Qed.

Lemma risesByOne_gapFree (depths : list nat) :
  risesByOne 0 depths -> gapFree depths.
Proof.
  intros Hr. split.
  - intros d Hd. destruct depths as [|d0 rest]; [discriminate|].
    simpl in Hd. injection Hd as <-. destruct Hr as [Hle _]. lia.
  - intros i a b. now apply risesByOne_step with (bound := 0).
Qed.

Lemma gapFree_computeNormalizedDepths (hs : list HeadingCache) :
  gapFree (computeNormalizedDepths hs).
Proof.
  apply risesByOne_gapFree. exact (risesByOne_depthsLoop hs []).
Qed.

(** Zipping the survivors with their depths loses nothing. *)
Lemma mapIndexed_depths (l : list HeadingCache) :
  forall (ds before : list nat),
    List.length l = List.length ds ->
    map depth
      (mapIndexed (fun h i => mkFiltered h (nth i (before ++ ds) 0))
         (List.length before) l) = ds.
Proof.
  induction l as [|h rest IH]; intros ds before Hlen.
  - destruct ds; [reflexivity | discriminate].
  - destruct ds as [|d ds]; [discriminate|]. simpl.
    rewrite app_nth2, Nat.sub_diag by lia. simpl. f_equal.
    specialize (IH ds (before ++ [d])).
    rewrite <- app_assoc, length_app, Nat.add_1_r in IH. simpl in IH.
    apply IH. simpl in Hlen. lia.
Qed.

Lemma mapIndexed_headings (l : list HeadingCache) (ds : list nat) :
  forall i,
    map fh_heading (mapIndexed (fun h i => mkFiltered h (nth i ds 0)) i l) = l.
Proof.
  induction l as [|h rest IH]; intros i; simpl; [reflexivity|].
  now rewrite IH.
Qed.

Lemma depths_getFilteredHeadings (hs : list HeadingCache)
    (o : TableOfContentsOptions) :
  map depth (getFilteredHeadings isHeadingAllowed hs o)
  = computeNormalizedDepths (survivingHeadings isHeadingAllowed hs o).
Proof.
  unfold getFilteredHeadings.
  apply (mapIndexed_depths _ _ []).
  now rewrite length_computeNormalizedDepths.
Qed.

Lemma headings_getFilteredHeadings (hs : list HeadingCache)
    (o : TableOfContentsOptions) :
  map fh_heading (getFilteredHeadings isHeadingAllowed hs o)
  = survivingHeadings isHeadingAllowed hs o.
Proof. unfold getFilteredHeadings. apply mapIndexed_headings. Qed.

Lemma gapFree_getFilteredHeadings (hs : list HeadingCache)
    (o : TableOfContentsOptions) :
  gapFree (map depth (getFilteredHeadings isHeadingAllowed hs o)).
Proof.
  rewrite depths_getFilteredHeadings. apply gapFree_computeNormalizedDepths.
Qed.

Lemma depths_of_levels_1_3_3 (l : list HeadingCache) :
  map level l = [1; 3; 3]%Z -> computeNormalizedDepths l = [0; 1; 1].
Proof.
  intros Hl.
  destruct l as [|a [|b [|c [|? ?]]]]; try discriminate.
  simpl in Hl. injection Hl as Ha Hb Hc.
  unfold computeNormalizedDepths. simpl. rewrite Ha, Hb, Hc. reflexivity.
Qed.

Local Abbreviation loop := (filterLoop isHeadingAllowed).
Local Abbreviation step := (filterStep isHeadingAllowed).

Lemma filterLoop_acc (o : TableOfContentsOptions) (m : JsNumber)
    (hs : list HeadingCache) :
  forall u acc,
    loop o m u acc hs = (fst (loop o m u [] hs), acc ++ snd (loop o m u [] hs)).
Proof.
  induction hs as [|h rest IH]; intros u acc; simpl.
  - now rewrite app_nil_r.
  - destruct (step o m u h) as [u' pushed].
    rewrite IH. destruct pushed.
    + rewrite (IH u' [h]). simpl. now rewrite <- app_assoc.
    + reflexivity.
Qed.

Lemma filterLoop_app (o : TableOfContentsOptions) (m : JsNumber)
    (l1 l2 : list HeadingCache) :
  forall u acc,
    loop o m u acc (l1 ++ l2)
    = loop o m (fst (loop o m u acc l1)) (snd (loop o m u acc l1)) l2.
Proof.
  induction l1 as [|h rest IH]; intros u acc; simpl.
  - reflexivity.
  - destruct (step o m u h) as [u' pushed]. apply IH.
Qed.

Lemma filterLoop_restrict (o : TableOfContentsOptions) (m : JsNumber)
    (hs : list HeadingCache) :
  forall u,
    snd (loop o m u [] hs)
    = restrict (filterVerdicts isHeadingAllowed o m u hs) hs.
Proof.
  induction hs as [|h rest IH]; intros u; simpl.
  - reflexivity.
  - destruct (step o m u h) as [u' pushed].
    rewrite filterLoop_acc. simpl. rewrite IH. now destruct pushed.
Qed.

Lemma length_filterVerdicts (o : TableOfContentsOptions) (m : JsNumber)
    (hs : list HeadingCache) :
  forall u,
    List.length (filterVerdicts isHeadingAllowed o m u hs) = List.length hs.
Proof.
  induction hs as [|h rest IH]; intros u; simpl.
  - reflexivity.
  - destruct (step o m u h) as [u' pushed]. simpl. now rewrite IH.
Qed.

Lemma Subsequence_nil {A : Type} (l : list A) : Subsequence [] l.
Proof. induction l; now constructor. Qed.

Lemma restrict_Subsequence {A : Type} (l : list A) :
  forall flags, Subsequence (restrict flags l) l.
Proof.
  induction l as [|x rest IH]; intros [|[|] flags]; simpl;
    try apply Subsequence_nil.
  - apply sub_keep, IH.
  - apply sub_skip, IH.
Qed.

(** An iteration that pushes has met every test. *)
Lemma filterStep_pushed (o : TableOfContentsOptions) (m : JsNumber)
    (u : Z) (h : HeadingCache) :
  snd (step o m u h) = true -> passesTests isHeadingAllowed o m h = true.
Proof.
  unfold filterStep, passesTests.
  destruct ((u >? 0)%Z && (level h >? u)%Z); simpl; [discriminate|].
  destruct (isHeadingAllowed (heading h) o); simpl; [|discriminate].
  destruct (ltNumber (level h) m); simpl; [discriminate|].
  destruct ((maxLevel o >? 0)%Z && (level h >? maxLevel o)%Z); simpl;
    [discriminate|].
  destruct (Nat.eqb (String.length (heading h)) 0); simpl;
    [discriminate | reflexivity].
Qed.

Lemma filterLoop_passes (o : TableOfContentsOptions) (m : JsNumber)
    (hs : list HeadingCache) :
  forall u,
    Forall (fun h => passesTests isHeadingAllowed o m h = true)
      (snd (loop o m u [] hs)).
Proof.
  induction hs as [|h rest IH]; intros u; simpl.
  - constructor.
  - pose proof (filterStep_pushed o m u h) as Hp.
    destruct (step o m u h) as [u' pushed].
    rewrite filterLoop_acc. simpl.
    destruct pushed; simpl; [constructor; auto|]; apply IH.
Qed.

(** With no exclude pattern [unallowedLevel] stays 0 and an iteration is the
    conjunction of the four tests. *)
Lemma filterStep_no_exclude (o : TableOfContentsOptions) (m : JsNumber)
    (h : HeadingCache) :
  truthy (exclude o) = false ->
  step o m 0%Z h = (0%Z, passesTests isHeadingAllowed o m h).
Proof.
  intros Hex. unfold filterStep, passesTests. rewrite Hex. simpl.
  assert (Hz : (if (level h <=? 0)%Z then 0%Z else 0%Z) = 0%Z)
    by now destruct (level h <=? 0)%Z.
  rewrite Hz.
  destruct (isHeadingAllowed (heading h) o); simpl; [|reflexivity].
  destruct (ltNumber (level h) m); simpl; [reflexivity|].
  destruct ((maxLevel o >? 0)%Z && (level h >? maxLevel o)%Z); simpl;
    [reflexivity|].
  now destruct (Nat.eqb (String.length (heading h)) 0).
Qed.

Lemma filterLoop_no_exclude (o : TableOfContentsOptions) (m : JsNumber)
    (hs : list HeadingCache) :
  truthy (exclude o) = false ->
  loop o m 0%Z [] hs = (0%Z, filter (passesTests isHeadingAllowed o m) hs).
Proof.
  intros Hex. induction hs as [|h rest IH]; simpl.
  - reflexivity.
  - rewrite (filterStep_no_exclude o m h Hex).
    rewrite filterLoop_acc, IH. simpl.
    now destruct (passesTests isHeadingAllowed o m h).
Qed.

(** A heading that is tested and fails under an exclude pattern: the
    iteration pushes nothing and leaves its level in [unallowedLevel]. *)
Lemma filterStep_excluded (o : TableOfContentsOptions) (m : JsNumber)
    (u : Z) (h : HeadingCache) :
  truthy (exclude o) = true ->
  (u >? 0)%Z && (level h >? u)%Z = false ->
  isHeadingAllowed (heading h) o = false ->
  step o m u h = (level h, false).
Proof.
  intros Hex Hreach Hfail. unfold filterStep.
  rewrite Hreach, Hfail, Hex. reflexivity.
Qed.

(** Below an active exclusion nothing is tested and nothing changes. *)
Lemma filterStep_cascade (o : TableOfContentsOptions) (m : JsNumber)
    (u : Z) (h : HeadingCache) :
  (0 < u)%Z -> (u < level h)%Z -> step o m u h = (u, false).
Proof.
  intros Hu Hh. unfold filterStep.
  replace (u >? 0)%Z with true by (symmetry; apply Z.gtb_lt; lia).
  replace (level h >? u)%Z with true by (symmetry; apply Z.gtb_lt; lia).
  reflexivity.
Qed.

Lemma filterLoop_cascade (o : TableOfContentsOptions) (m : JsNumber)
    (u : Z) (mid rest : list HeadingCache) :
  (0 < u)%Z ->
  Forall (fun x => (u < level x)%Z) mid ->
  forall acc, loop o m u acc (mid ++ rest) = loop o m u acc rest.
Proof.
  intros Hu Hmid. induction Hmid as [|x mid' Hx _ IH]; intros acc; simpl.
  - reflexivity.
  - rewrite (filterStep_cascade o m u x Hu Hx). apply IH.
Qed.

(** A heading at or above the excluded level ends the exclusion: the
    iteration runs as if [unallowedLevel] were 0. *)
Lemma filterStep_scope_end (o : TableOfContentsOptions) (m : JsNumber)
    (u : Z) (r : HeadingCache) :
  (level r <= u)%Z -> step o m u r = step o m 0%Z r.
Proof.
  intros Hr. unfold filterStep.
  replace (level r >? u)%Z with false
    by (symmetry; rewrite Z.gtb_ltb; apply Z.ltb_ge; lia).
  rewrite andb_false_r. simpl.
  replace (level r <=? u)%Z with true by (symmetry; apply Z.leb_le; lia).
  now destruct (level r <=? 0)%Z.
Qed.

End FilterProperties.

(** In a gap-free sequence every element below the top level has a parent:
    an earlier element exactly one level up, with only deeper elements in
    between. *)
Lemma gapFree_open_ancestor (depths : list nat) :
  gapFree depths ->
  forall j dj d,
    nth_error depths j = Some dj -> d < dj ->
    exists i,
      i < j /\ nth_error depths i = Some d /\
      forall k dk, i < k <= j -> nth_error depths k = Some dk -> d < dk.
Proof.
  intros [Hfirst Hstep]. induction j as [|j IH]; intros dj d Hj Hd.
  - apply Hfirst in Hj. lia.
  - destruct (nth_error depths j) as [a|] eqn:Ha.
    2:{ apply nth_error_None in Ha.
        assert (nth_error depths (S j) = None) by (apply nth_error_None; lia).
        congruence. }
    pose proof (Hstep j a dj Ha Hj) as Hle.
    destruct (Nat.eq_dec a d) as [->|Hne].
    + exists j. repeat split; [lia | assumption |].
      intros k dk Hk Hdk. assert (k = S j) by lia. subst k.
      rewrite Hj in Hdk. injection Hdk as <-. assumption.
    + destruct (IH a d eq_refl ltac:(lia)) as (i & Hi & Hdi & Hbetween).
      exists i. repeat split; [lia | assumption |].
      intros k dk Hk Hdk. destruct (Nat.eq_dec k (S j)) as [->|Hk'].
      * rewrite Hj in Hdk. injection Hdk as <-. assumption.
      * apply (Hbetween k dk); [lia | assumption].
Qed.

(** ** Strings *)

Lemma append_nil_r (s : string) : String.append s EmptyString = s.
Proof. induction s as [|c s IH]; simpl; [reflexivity | now rewrite IH]. Qed.

Lemma append_assoc (a b c : string) :
  String.append (String.append a b) c = String.append a (String.append b c).
Proof. induction a as [|x a IH]; simpl; [reflexivity | now rewrite IH]. Qed.

Lemma length_append (a b : string) :
  String.length (String.append a b) = String.length a + String.length b.
Proof. induction a as [|x a IH]; simpl; [reflexivity | now rewrite IH]. Qed.

Lemma length_join_cons (sep x : string) (xs : list string) :
  String.length x <= String.length (join sep (x :: xs)).
Proof.
  unfold join. destruct xs as [|y ys]; simpl; [lia|].
  rewrite length_append. lia.
Qed.

Lemma length_zero_empty (s : string) :
  Nat.ltb 0 (String.length s) = negb (String.eqb s EmptyString).
Proof. now destruct s. Qed.

(** ** Properties of the markdown builders *)

Lemma mathMin_spec (levels : list Z) :
  match mathMin levels with
  | PosInfinity => levels = []
  | Finite m => In m levels /\ Forall (fun x => (m <= x)%Z) levels
  end.
Proof.
  induction levels as [|z rest IH]; simpl; [reflexivity|].
  destruct (mathMin rest) as [m|]; simpl.
  - destruct IH as [Hin Hall]. split.
    + destruct (Z.min_spec z m) as [[_ ->] | [_ ->]]; [now left | now right].
    + constructor; [lia|].
      apply Forall_impl with (P := fun x => (m <= x)%Z); [intros; lia | exact Hall].
  - subst rest. split; [now left | constructor; [lia | constructor]].
Qed.

Lemma filter_filter {A : Type} (p q : A -> bool) (l : list A) :
  filter p (filter q l) = filter (fun x => q x && p x) l.
Proof.
  induction l as [|x rest IH]; simpl; [reflexivity|].
  destruct (q x); simpl; [destruct (p x)|]; now rewrite IH.
Qed.

Lemma length_listLine
    (fmt : string -> TableOfContentsOptions -> string) (prefix : string)
    (o : TableOfContentsOptions) (item : FilteredHeading) :
  String.length prefix < String.length (listLine fmt prefix o item).
Proof.
  unfold listLine. rewrite !length_append. simpl. lia.
Qed.

(** ** The pattern matcher *)

Lemma stripPrefix_append (p s : string) :
  stripPrefix p (String.append p s) = Some s.
Proof.
  induction p as [|c p IH]; simpl; [reflexivity|].
  now rewrite Ascii.eqb_refl.
Qed.

Lemma stripPrefix_sound (p : string) :
  forall s s', stripPrefix p s = Some s' -> s = String.append p s'.
Proof.
  induction p as [|a p IH]; intros s s' H; simpl in *.
  - now injection H as ->.
  - destruct s as [|b s]; [discriminate|].
    destruct (Ascii.eqb a b) eqn:Hab; [|discriminate].
    apply Ascii.eqb_eq in Hab. subst b. f_equal. now apply IH.
Qed.

Section MatchPlus.
Variable R : Type.
Variable excluded : list ascii.
Variable k : string -> string -> option R.

(** A maximal run of the class, followed by a character outside it, is taken
    whole when the continuation accepts it. *)
Lemma matchPlus_complete (g : string) :
  forall group c0 rest r,
    g <> EmptyString -> noneOf excluded g = true ->
    inClass excluded c0 = false ->
    k (String.append group g) (String c0 rest) = Some r ->
    matchPlus excluded k group (String.append g (String c0 rest)) = Some r.
Proof.
  induction g as [|c g' IH]; intros group c0 rest r Hne Hclass Hc0 Hk.
  - contradiction.
  - simpl in Hclass. apply andb_prop in Hclass as [Hc Hg'].
    simpl. rewrite Hc. destruct g' as [|c' g''].
    + simpl. rewrite Hc0. exact Hk.
    + rewrite (IH (String.append group (String c EmptyString)) c0 rest r);
        trivial; [discriminate|].
      rewrite append_assoc. exact Hk.
Qed.

(** Whatever [matchPlus] answers, it handed the continuation a non-empty run
    of the class. *)
Lemma matchPlus_sound (s : string) :
  forall group r,
    matchPlus excluded k group s = Some r ->
    exists g rest,
      g <> EmptyString /\ noneOf excluded g = true
      /\ s = String.append g rest /\ k (String.append group g) rest = Some r.
Proof.
  induction s as [|c s' IH]; intros group r H; simpl in H; [discriminate|].
  destruct (inClass excluded c) eqn:Hc; [|discriminate].
  destruct (matchPlus excluded k (String.append group (String c EmptyString)) s')
    as [r'|] eqn:Hdeep.
  - injection H as ->.
    destruct (IH _ _ Hdeep) as (g & rest & Hne & Hclass & Hs & Hk).
    exists (String c g), rest. repeat split.
    + discriminate.
    + simpl. now rewrite Hc, Hclass.
    + simpl. now rewrite Hs.
    + rewrite append_assoc in Hk. exact Hk.
  - exists (String c EmptyString), s'. repeat split.
    + discriminate.
    + simpl. now rewrite Hc.
    + exact H.
Qed.

End MatchPlus.

Lemma inClass_closeBracket_pipe : inClass [closeBracket; pipe] pipe = false.
Proof. reflexivity. Qed.

Lemma inClass_closeBracket (ex : list ascii) :
  inClass (closeBracket :: ex) closeBracket = false.
Proof. reflexivity. Qed.

(** The pattern matches a well-shaped link at the start of the text, with the
    target and the display text as its groups. *)
Lemma matchItems_wikilink (target display rest : string) :
  wellShaped target display ->
  matchItems linkPattern [] (wikilink target display rest)
  = Some ([target; display], rest).
Proof.
  intros (Ht & Htc & Hd & Hdc).
  unfold linkPattern, wikilink.
  cbn [matchItems]. rewrite stripPrefix_append.
  apply matchPlus_complete; trivial.
  simpl.
  apply (matchPlus_complete _ [closeBracket]); trivial.
Qed.

(** Conversely the pattern matches nothing else. *)
Lemma matchItems_sound (s : string) (groups : list string) (rest : string) :
  matchItems linkPattern [] s = Some (groups, rest) ->
  exists target display,
    wellShaped target display
    /\ s = wikilink target display rest /\ groups = [target; display].
Proof.
  unfold linkPattern. cbn [matchItems]. intros H.
  destruct (stripPrefix "[[#" s) as [s1|] eqn:H1; [|discriminate].
  apply stripPrefix_sound in H1.
  apply matchPlus_sound in H as (t & s2 & Ht & Htc & Hs1 & H).
  cbn [matchItems String.append app] in H.
  destruct (stripPrefix "|" s2) as [s3|] eqn:H3; [|discriminate].
  apply stripPrefix_sound in H3.
  apply matchPlus_sound in H as (d & s4 & Hd & Hdc & Hs3 & H).
  cbn [matchItems String.append app] in H.
  destruct (stripPrefix "]]" s4) as [s5|] eqn:H5; [|discriminate].
  apply stripPrefix_sound in H5.
  injection H as <- <-.
  exists t, d. repeat split; trivial.
  unfold wikilink. now rewrite H1, Hs1, H3, Hs3, H5.
Qed.

Lemma matchItems_None (s : string) :
  ~ startsWithLink s -> matchItems linkPattern [] s = None.
Proof.
  intros Hno. destruct (matchItems linkPattern [] s) as [[groups rest]|] eqn:H;
    [|reflexivity].
  exfalso. apply Hno.
  destruct (matchItems_sound s groups rest H) as (t & d & Hshape & Hs & _).
  now exists t, d, rest.
Qed.

Lemma length_wikilink (target display rest : string) :
  String.length rest < String.length (wikilink target display rest).
Proof. unfold wikilink. rewrite !length_append. simpl. lia. Qed.

(** ** The global replacement *)

Lemma replaceLoop_fuel (replacer : list string -> string) (n : nat) :
  forall s f1 f2,
    String.length s <= n -> String.length s < f1 -> String.length s < f2 ->
    replaceLoop f1 linkPattern replacer s = replaceLoop f2 linkPattern replacer s.
Proof.
  induction n as [|n IH]; intros s f1 f2 Hn H1 H2;
    (destruct f1 as [|f1]; [lia|]); (destruct f2 as [|f2]; [lia|]);
    cbn [replaceLoop];
    (destruct (matchItems linkPattern [] s) as [[groups rest]|] eqn:Hm;
     [ apply matchItems_sound in Hm as (t & d & _ & Hs & _);
       pose proof (length_wikilink t d rest) as Hlen; rewrite <- Hs in Hlen
     | ]).
  - lia.
  - destruct s as [|c s]; [reflexivity | simpl in Hn; lia].
  - f_equal. apply IH; lia.
  - destruct s as [|c s]; [reflexivity|]. simpl in Hn, H1, H2.
    f_equal. apply IH; lia.
Qed.

Lemma replaceLoop_S (fuel : nat) (pattern : list RegexItem)
    (replacer : list string -> string) (text : string) :
  replaceLoop (S fuel) pattern replacer text
  = match matchItems pattern [] text with
    | Some (groups, rest) =>
        String.append (replacer groups) (replaceLoop fuel pattern replacer rest)
    | None =>
        match text with
        | EmptyString => EmptyString
        | String c rest => String c (replaceLoop fuel pattern replacer rest)
        end
    end.
Proof. reflexivity. Qed.

Lemma wikitextToHtml_nil : wikitextToHtml EmptyString = EmptyString.
Proof. reflexivity. Qed.

Lemma wikitextToHtml_link (target display rest : string) :
  wellShaped target display ->
  wikitextToHtml (wikilink target display rest)
  = String.append (anchor target display) (wikitextToHtml rest).
Proof.
  intros Hshape. unfold wikitextToHtml, replaceGlobal.
  rewrite replaceLoop_S at 1. rewrite matchItems_wikilink by assumption.
  cbn [linkReplacer]. f_equal.
  pose proof (length_wikilink target display rest).
  apply replaceLoop_fuel with (n := String.length rest); lia.
Qed.

Lemma wikitextToHtml_skip (c : ascii) (s : string) :
  ~ startsWithLink (String c s) ->
  wikitextToHtml (String c s) = String c (wikitextToHtml s).
Proof.
  intros Hno. unfold wikitextToHtml, replaceGlobal.
  rewrite replaceLoop_S at 1. rewrite matchItems_None by assumption.
  reflexivity.
Qed.

(** ** HTML escaping *)

Lemma replaceAllChar_append (c : ascii) (by_ a b : string) :
  replaceAllChar c by_ (String.append a b)
  = String.append (replaceAllChar c by_ a) (replaceAllChar c by_ b).
Proof.
  induction a as [|x a IH]; simpl; [reflexivity|].
  destruct (Ascii.eqb x c); rewrite IH; [now rewrite append_assoc | reflexivity].
Qed.

Lemma escapeHtml_append (a b : string) :
  escapeHtml (String.append a b)
  = String.append (escapeHtml a) (escapeHtml b).
Proof. unfold escapeHtml. now rewrite !replaceAllChar_append. Qed.

Lemma escapeHtml_char (c : ascii) :
  escapeHtml (String c EmptyString) = escapeChar c.
Proof.
  unfold escapeHtml, escapeChar.
  destruct (Ascii.eqb c ampersand) eqn:H1.
  { apply Ascii.eqb_eq in H1. now subst c. }
  cbn [replaceAllChar]. rewrite H1.
  destruct (Ascii.eqb c lessThan) eqn:H2.
  { apply Ascii.eqb_eq in H2. now subst c. }
  cbn [replaceAllChar]. rewrite H2.
  destruct (Ascii.eqb c greaterThan) eqn:H3.
  { apply Ascii.eqb_eq in H3. now subst c. }
  cbn [replaceAllChar]. rewrite H3.
  destruct (Ascii.eqb c doubleQuote) eqn:H4.
  { apply Ascii.eqb_eq in H4. now subst c. }
  cbn [replaceAllChar]. now rewrite H4.
Qed.

(** The four chained [replaceAll] calls escape each character on its own. *)
Lemma escapeHtml_each (text : string) : escapeHtml text = escapeEach text.
Proof.
  induction text as [|c rest IH]; [reflexivity|].
  change (String c rest) with (String.append (String c EmptyString) rest).
  rewrite escapeHtml_append, escapeHtml_char, IH. reflexivity.
Qed.

Lemma occurs_append (c : ascii) (a b : string) :
  occurs c (String.append a b) = occurs c a || occurs c b.
Proof.
  induction a as [|x a IH]; simpl; [reflexivity|].
  now rewrite IH, orb_assoc.
Qed.

Lemma escapeChar_clean (c : ascii) :
  occurs lessThan (escapeChar c) = false
  /\ occurs greaterThan (escapeChar c) = false
  /\ occurs doubleQuote (escapeChar c) = false.
Proof.
  unfold escapeChar.
  destruct (Ascii.eqb c ampersand) eqn:H1; [now repeat split|].
  destruct (Ascii.eqb c lessThan) eqn:H2; [now repeat split|].
  destruct (Ascii.eqb c greaterThan) eqn:H3; [now repeat split|].
  destruct (Ascii.eqb c doubleQuote) eqn:H4; [now repeat split|].
  simpl. now rewrite H2, H3, H4.
Qed.

Lemma escapeEach_clean (text : string) :
  occurs lessThan (escapeEach text) = false
  /\ occurs greaterThan (escapeEach text) = false
  /\ occurs doubleQuote (escapeEach text) = false.
Proof.
  induction text as [|c rest (IH1 & IH2 & IH3)]; [now repeat split|].
  destruct (escapeChar_clean c) as (H1 & H2 & H3).
  simpl. rewrite !occurs_append, H1, H2, H3, IH1, IH2, IH3. now repeat split.
Qed.

Lemma anchor_markup (target display : string) :
  anchor target display
  = anchorMarkup (escapeEach target) (escapeEach display).
Proof. unfold anchor. now rewrite !escapeHtml_each. Qed.

(** ** The scan of [wikitextToHtml] *)

Lemma startsWithLink_bracket (c : ascii) (s : string) :
  startsWithLink (String c s) -> c = openBracket.
Proof.
  intros (t & d & rest & _ & Hs). unfold wikilink in Hs. simpl in Hs.
  now injection Hs as -> _.
Qed.

Lemma wikitextToHtml_plain_prefix (before s : string) :
  occurs openBracket before = false ->
  wikitextToHtml (String.append before s)
  = String.append before (wikitextToHtml s).
Proof.
  induction before as [|c before IH]; intros Hno; simpl; [reflexivity|].
  simpl in Hno. apply orb_false_elim in Hno as [Hc Hrest].
  rewrite wikitextToHtml_skip.
  - now rewrite IH.
  - intros Hlink. apply startsWithLink_bracket in Hlink. subst c.
    now rewrite Ascii.eqb_refl in Hc.
Qed.

Lemma wikitextToHtml_scanned (segments : list Segment) :
  scanned segments -> wikitextToHtml (sourceOf segments) = markupOf segments.
Proof.
  induction segments as [|[c | t d] rest IH]; simpl.
  - reflexivity.
  - intros [Hno Hrest]. rewrite wikitextToHtml_skip by assumption.
    now rewrite IH.
  - intros [Hshape Hrest]. rewrite wikitextToHtml_link by assumption.
    now rewrite anchor_markup, IH.
Qed.

Lemma segmentation (n : nat) :
  forall text,
    String.length text <= n ->
    exists segments, sourceOf segments = text /\ scanned segments.
Proof.
  induction n as [|n IH]; intros text Hn.
  - destruct text; [|simpl in Hn; lia]. now exists [].
  - destruct (matchItems linkPattern [] text) as [[groups rest]|] eqn:Hm.
    + apply matchItems_sound in Hm as (t & d & Hshape & Hs & _).
      pose proof (length_wikilink t d rest) as Hlen. rewrite <- Hs in Hlen.
      destruct (IH rest ltac:(lia)) as (segs & Hsrc & Hscan).
      exists (Link t d :: segs). simpl. now rewrite Hsrc.
    + destruct text as [|c s]; [now exists []|].
      destruct (IH s ltac:(simpl in Hn; lia)) as (segs & Hsrc & Hscan).
      exists (Plain c :: segs). simpl. rewrite Hsrc. repeat split; trivial.
      intros (t & d & rest & Hshape & Hs).
      rewrite Hs, matchItems_wikilink in Hm by assumption. discriminate.
Qed.

Lemma containsLink_tail (c : ascii) (s : string) :
  containsLink s -> containsLink (String c s).
Proof.
  intros (before & tail & Hs & Hlink).
  exists (String c before), tail. simpl. now rewrite Hs.
Qed.

(** Where no link occurs the translation changes nothing. *)
Lemma wikitextToHtml_identity (s : string) :
  ~ containsLink s -> wikitextToHtml s = s.
Proof.
  induction s as [|c s IH]; intros Hno; [reflexivity|].
  rewrite wikitextToHtml_skip.
  - rewrite IH; [reflexivity|]. intros H. now apply Hno, containsLink_tail.
  - intros H. apply Hno. now exists EmptyString, (String c s).
Qed.

Lemma containsLink_pipe (s : string) : containsLink s -> occurs pipe s = true.
Proof.
  intros (before & tail & -> & t & d & rest & _ & ->).
  unfold wikilink. rewrite !occurs_append. simpl.
  now rewrite !orb_true_r.
Qed.

Lemma containsLink_bracket (s : string) :
  containsLink s -> occurs openBracket s = true.
Proof.
  intros (before & tail & -> & t & d & rest & _ & ->).
  unfold wikilink. rewrite !occurs_append. simpl.
  now rewrite !orb_true_r.
Qed.

(** ** The store of [buildTree] *)

Lemma Reads_stable (objects objects' : list NodeObject) :
  (forall lo hi r t,
      Reads objects lo hi r t ->
      (forall i, lo <= i < hi -> nth_error objects' i = nth_error objects i) ->
      Reads objects' lo hi r t)
  /\ (forall lo hi refs ts,
         ReadsAll objects lo hi refs ts ->
         (forall i, lo <= i < hi -> nth_error objects' i = nth_error objects i) ->
         ReadsAll objects' lo hi refs ts).
Proof.
  apply Reads_ReadsAll_ind.
  - intros lo hi r text refs ts Hlo Hhi Hobj _ IH Hsame.
    apply Reads_node with (refs := refs); trivial.
    + rewrite Hsame; [assumption | lia].
    + apply IH. intros i Hi. apply Hsame. lia.
  - constructor.
  - intros lo hi r refs t ts _ IHr _ IHrs Hsame.
    constructor; [apply IHr | apply IHrs]; assumption.
Qed.

Lemma Reads_widen (objects : list NodeObject) :
  (forall lo hi r t,
      Reads objects lo hi r t ->
      forall lo' hi', lo' <= lo -> hi <= hi' -> Reads objects lo' hi' r t)
  /\ (forall lo hi refs ts,
         ReadsAll objects lo hi refs ts ->
         forall lo' hi', lo' <= lo -> hi <= hi' ->
                         ReadsAll objects lo' hi' refs ts).
Proof.
  apply Reads_ReadsAll_ind.
  - intros lo hi r text refs ts Hlo Hhi Hobj _ IH lo' hi' Hlo' Hhi'.
    apply Reads_node with (refs := refs); trivial; try lia.
    apply IH; lia.
  - constructor.
  - intros lo hi r refs t ts _ IHr _ IHrs lo' hi' Hlo' Hhi'.
    constructor; [apply IHr | apply IHrs]; assumption.
Qed.

Lemma ReadsAll_app (objects : list NodeObject) (lo hi : nat)
    (refs1 : list Ref) :
  forall ts1 refs2 ts2,
    ReadsAll objects lo hi refs1 ts1 -> ReadsAll objects lo hi refs2 ts2 ->
    ReadsAll objects lo hi (refs1 ++ refs2) (ts1 ++ ts2).
Proof.
  induction refs1 as [|r refs1 IH]; intros ts1 refs2 ts2 H1 H2;
    inversion H1; subst; simpl; trivial.
  constructor; [assumption | now apply IH].
Qed.

(** With enough fuel [readNode] computes the tree that [Reads] describes. *)
Lemma readNode_Reads (objects : list NodeObject) :
  (forall lo hi r t,
      Reads objects lo hi r t ->
      forall fuel, hi - r <= fuel -> readNode fuel objects r = Some t)
  /\ (forall lo hi refs ts,
         ReadsAll objects lo hi refs ts ->
         forall fuel, hi - lo <= fuel ->
                      allSome (map (readNode fuel objects) refs) = Some ts).
Proof.
  apply Reads_ReadsAll_ind.
  - intros lo hi r text refs ts Hlo Hhi Hobj _ IH fuel Hfuel.
    destruct fuel as [|fuel]; [lia|]. simpl. rewrite Hobj. simpl.
    rewrite IH by lia. reflexivity.
  - reflexivity.
  - intros lo hi r refs t ts Hr IHr _ IHrs fuel Hfuel. simpl.
    assert (lo <= r) by (inversion Hr; assumption).
    rewrite IHr by lia. now rewrite IHrs.
Qed.

Lemma nth_error_updateAt_other {A : Type} (f : A -> A) (l : list A) :
  forall i j, i <> j -> nth_error (updateAt f i l) j = nth_error l j.
Proof.
  induction l as [|x l IH]; intros i j Hij; [reflexivity|].
  destruct i as [|i], j as [|j]; simpl; trivial; [lia|].
  apply IH. lia.
Qed.

Lemma nth_error_updateAt_same {A : Type} (f : A -> A) (l : list A) :
  forall i x, nth_error l i = Some x -> nth_error (updateAt f i l) i = Some (f x).
Proof.
  induction l as [|y l IH]; intros [|i] x H; simpl in *; try discriminate.
  - now injection H as ->.
  - now apply IH.
Qed.

Lemma Spine_length (objects : list NodeObject) (entries : list StackEntry) :
  forall hi open frames rootRefs doneRefs done,
    Spine objects hi open entries frames rootRefs doneRefs done ->
    List.length frames = List.length entries.
Proof.
  induction entries as [|e below IH];
    intros hi open [|f fbelow] rootRefs doneRefs done H; simpl in H;
    try contradiction; [reflexivity|].
  destruct H as (_ & _ & _ & H). simpl. f_equal. exact (IH _ _ _ _ _ _ H).
Qed.

(** The part of a spine below [hi] does not see changes at or above [hi]. *)
Lemma Spine_stable (objects objects' : list NodeObject)
    (entries : list StackEntry) :
  forall hi open frames rootRefs doneRefs done,
    (forall i, i < hi -> nth_error objects' i = nth_error objects i) ->
    Spine objects hi open entries frames rootRefs doneRefs done ->
    Spine objects' hi open entries frames rootRefs doneRefs done.
Proof.
  induction entries as [|e below IH];
    intros hi open [|f fbelow] rootRefs doneRefs done Hsame H; simpl in *;
    try contradiction.
  - destruct H as [Hroots Hdone]. split; [assumption|].
    apply (proj2 (Reads_stable objects objects') _ _ _ _ Hdone).
    intros i Hi. apply Hsame. lia.
  - destruct H as (Hlt & Hobj & Hkids & Hbelow). repeat split; trivial.
    + now rewrite Hsame.
    + apply (proj2 (Reads_stable objects objects') _ _ _ _ Hkids).
      intros i Hi. apply Hsame. lia.
    + apply IH; trivial. intros i Hi. apply Hsame. lia.
Qed.

Lemma flattenForest_app (n : nat) (a b : list TreeNode) :
  flattenForest n (a ++ b) = flattenForest n a ++ flattenForest n b.
Proof. apply flat_map_app. Qed.

(** Trees put under the top frame lie as deep as there are frames, and come
    last in pre-order. *)
Lemma flattenForest_plug (frames : list Frame) :
  forall sub n,
    flattenForest n (plug frames sub)
    = flattenForest n (plug frames [])
      ++ flattenForest (n + List.length frames) sub.
Proof.
  induction frames as [|f below IH]; intros sub n; simpl.
  - now rewrite Nat.add_0_r.
  - rewrite (IH [Node (fr_text f) (fr_done f ++ sub)]).
    rewrite (IH [Node (fr_text f) (fr_done f ++ [])]).
    unfold flattenForest at 2 4. simpl.
    rewrite !app_nil_r, flat_map_app, Nat.add_succ_r, <- app_assoc.
    reflexivity.
Qed.

Lemma length_updateAt {A : Type} (f : A -> A) (l : list A) :
  forall i, List.length (updateAt f i l) = List.length l.
Proof.
  induction l as [|x l IH]; intros [|i]; simpl; trivial. now rewrite IH.
Qed.

(** Popping the top entry completes its node: it becomes the last complete
    child of the entry below, or the last complete root. *)
Lemma Spine_close_top (objects : list NodeObject) (hi : nat)
    (e : StackEntry) (below : list StackEntry) (f : Frame) (fbelow : list Frame)
    (rootRefs doneRefs : list Ref) (done : list TreeNode) :
  Spine objects hi [] (e :: below) (f :: fbelow) rootRefs doneRefs done ->
  exists fbelow' doneRefs' done',
    Spine objects hi [] below fbelow' rootRefs doneRefs' done'
    /\ done' ++ plug fbelow' [] = done ++ plug (f :: fbelow) [].
Proof.
  intros (Hlt & Hobj & Hkids & Hbelow). rewrite app_nil_r in Hobj.
  assert (Hnode : forall lo, lo <= se_node e ->
            Reads objects lo hi (se_node e) (Node (fr_text f) (fr_done f))).
  { intros lo Hlo. now apply Reads_node with (refs := fr_refs f). }
  destruct below as [|e' below'], fbelow as [|f' fbelow']; simpl in Hbelow;
    try contradiction.
  - destruct Hbelow as [Hroots Hdone].
    exists [], (doneRefs ++ [se_node e]),
      (done ++ [Node (fr_text f) (fr_done f)]).
    split; [split|].
    + now rewrite app_nil_r.
    + apply ReadsAll_app.
      * apply (proj2 (Reads_widen objects) _ _ _ _ Hdone); lia.
      * constructor; [apply Hnode; lia | constructor].
    + simpl. now rewrite !app_nil_r.
  - destruct Hbelow as (Hlt' & Hobj' & Hkids' & Hbelow').
    exists (mkFrame (fr_text f') (fr_refs f' ++ [se_node e])
              (fr_done f' ++ [Node (fr_text f) (fr_done f)]) :: fbelow'),
      doneRefs, done.
    split.
    + simpl. repeat split; trivial; [lia | now rewrite app_nil_r |].
      apply ReadsAll_app.
      * apply (proj2 (Reads_widen objects) _ _ _ _ Hkids'); lia.
      * constructor; [apply Hnode; lia | constructor].
    + simpl. now rewrite !app_nil_r.
Qed.

(** The [while] loop keeps the spine and the forest it stands for. *)
Lemma Spine_pop (objects : list NodeObject) (hi d : nat)
    (rootRefs : list Ref) (entries : list StackEntry) :
  forall frames doneRefs done,
    Spine objects hi [] entries frames rootRefs doneRefs done ->
    exists frames' doneRefs' done',
      Spine objects hi [] (popStack entries d) frames' rootRefs doneRefs' done'
      /\ done' ++ plug frames' [] = done ++ plug frames [].
Proof.
  induction entries as [|e below IH]; intros frames doneRefs done H.
  - now exists frames, doneRefs, done.
  - destruct frames as [|f fbelow]; [contradiction|]. simpl popStack.
    destruct (Nat.leb d (se_depth e)).
    + destruct (Spine_close_top _ _ _ _ _ _ _ _ _ H)
        as (fbelow' & doneRefs' & done' & Hspine & Hsame).
      destruct (IH _ _ _ Hspine) as (frames'' & doneRefs'' & done'' & H'' & Hsame').
      exists frames'', doneRefs'', done''. split; [assumption | congruence].
    + now exists (f :: fbelow), doneRefs, done.
Qed.

Lemma popStack_zero (entries : list StackEntry) : popStack entries 0 = [].
Proof. induction entries as [|e below IH]; simpl; trivial. Qed.

Lemma popStack_depths (d : nat) (entries : list StackEntry) :
  depthsCount entries -> d <= List.length entries ->
  List.length (popStack entries d) = d /\ depthsCount (popStack entries d).
Proof.
  induction entries as [|e below IH]; intros Hcount Hd; simpl in *.
  - split; [lia | exact I].
  - destruct Hcount as [He Hbelow].
    destruct (Nat.leb_spec d (se_depth e)) as [Hle | Hgt].
    + apply IH; [assumption | lia].
    + simpl. split; [lia | now split].
Qed.

Section BuildTree.
Variable getFormattedMarkdownHeading : string -> TableOfContentsOptions -> string.
Variable options : TableOfContentsOptions.

Local Abbreviation labelOf :=
  (fun item : FilteredHeading =>
     getFormattedMarkdownHeading (heading (fh_heading item)) options).
Local Abbreviation bstep := (buildStep getFormattedMarkdownHeading options).

Lemma stack_buildStep (st : BuildState) (item : FilteredHeading) :
  stack (bstep st item)
  = mkEntry (List.length (store st)) (depth item)
    :: popStack (stack st) (depth item).
Proof.
  unfold buildStep. now destruct (popStack (stack st) (depth item)).
Qed.

Lemma Built_initial : Built initialState [].
Proof.
  exists [], [], []. split; [|reflexivity]. split; [reflexivity | constructor].
Qed.

(** One iteration appends the new node to the pre-order listing, as deep as
    there are entries left on the stack after the [while] loop. *)
Lemma Built_step (st : BuildState) (processed : list (string * nat))
    (item : FilteredHeading) :
  Built st processed ->
  Built (bstep st item)
    (processed
     ++ [(labelOf item, List.length (popStack (stack st) (depth item)))]).
Proof.
  intros (frames & doneRefs & done & Hspine & Hflat).
  destruct (Spine_pop _ _ (depth item) _ _ _ _ _ Hspine)
    as (frames1 & doneRefs1 & done1 & Hspine1 & Hsame).
  pose proof (Spine_length _ _ _ _ _ _ _ _ Hspine1) as Hlen.
  set (text := labelOf item).
  set (node := List.length (store st)).
  assert (Hnew : forall objects,
            nth_error ((store st ++ [mkObject text []]) ++ objects) node
            = Some (mkObject text [])).
  { intros objects. rewrite <- app_assoc. unfold node.
    rewrite nth_error_app2 by lia. now rewrite Nat.sub_diag. }
  assert (Hold : forall i, i < node ->
            nth_error (store st ++ [mkObject text []]) i
            = nth_error (store st) i).
  { intros i Hi. now apply nth_error_app1. }
  assert (Hflat' :
    flattenForest 0 (done1 ++ plug frames1 [Node text []])
    = processed ++ [(text, List.length (popStack (stack st) (depth item)))]).
  { rewrite flattenForest_app, flattenForest_plug, app_assoc.
    rewrite <- flattenForest_app, Hsame, Hflat, Hlen. reflexivity. }
  unfold buildStep. fold text. fold node.
  destruct (popStack (stack st) (depth item)) as [|top below] eqn:Hpop.
  - destruct frames1 as [|f fbelow]; [|contradiction].
    destruct Hspine1 as [Hroots Hdone].
    exists [mkFrame text [] []], doneRefs1, done1. split; [|exact Hflat'].
    simpl. rewrite length_app. simpl. repeat split.
    + fold node. lia.
    + specialize (Hnew []). now rewrite app_nil_r in Hnew.
    + constructor.
    + rewrite Hroots, app_nil_r. reflexivity.
    + apply (proj2 (Reads_stable (store st) _) _ _ _ _ Hdone).
      intros i Hi. apply Hold. lia.
  - destruct frames1 as [|f fbelow]; [contradiction|].
    destruct Hspine1 as (Hlt & Hobj & Hkids & Hbelow).
    assert (Hother : forall i, i <> se_node top -> i < node ->
              nth_error (pushChild (se_node top) node
                           (store st ++ [mkObject text []])) i
              = nth_error (store st) i).
    { intros i Hne Hi. unfold pushChild.
      rewrite nth_error_updateAt_other by lia. now apply Hold. }
    exists (mkFrame text [] [] :: f :: fbelow), doneRefs1, done1.
    split; [|exact Hflat'].
    simpl. unfold pushChild at 1. rewrite length_updateAt, length_app. simpl.
    repeat split.
    + fold node. lia.
    + unfold pushChild. rewrite nth_error_updateAt_other by (fold node; lia).
      specialize (Hnew []). now rewrite app_nil_r in Hnew.
    + constructor.
    + exact Hlt.
    + unfold pushChild.
      erewrite nth_error_updateAt_same by (rewrite Hold; [exact Hobj | exact Hlt]).
      simpl. now rewrite app_nil_r.
    + apply (proj2 (Reads_stable (store st) _) _ _ _ _ Hkids).
      intros i Hi. apply Hother; fold node in Hi; lia.
    + apply Spine_stable with (objects := store st); [|exact Hbelow].
      intros i Hi. apply Hother; lia.
Qed.

(** At the end every root reads back, and the forest is what was built. *)
Lemma Built_read (st : BuildState) (processed : list (string * nat)) :
  Built st processed ->
  exists forest,
    readForest st = Some forest /\ flattenForest 0 forest = processed.
Proof.
  intros (frames & doneRefs & done & Hspine & Hflat).
  destruct (Spine_pop _ _ 0 _ _ _ _ _ Hspine)
    as (frames1 & doneRefs1 & done1 & Hspine1 & Hsame).
  rewrite popStack_zero in Hspine1.
  destruct frames1 as [|f fbelow]; [|contradiction].
  destruct Hspine1 as [Hroots Hdone]. rewrite app_nil_r in Hroots.
  simpl in Hsame. rewrite app_nil_r in Hsame.
  exists done1. split; [|congruence].
  unfold readForest. rewrite Hroots.
  apply (proj2 (readNode_Reads (store st)) _ _ _ _ Hdone). lia.
Qed.

(** Every run builds some forest whose pre-order labels are the input's. *)
Lemma Built_run_labels (items : list FilteredHeading) :
  forall st processed,
    Built st processed ->
    exists processed',
      Built (fold_left bstep items st) processed'
      /\ map fst processed' = map fst processed ++ map labelOf items.
Proof.
  induction items as [|item rest IH]; intros st processed Hbuilt; simpl.
  - exists processed. now rewrite app_nil_r.
  - destruct (IH _ _ (Built_step st processed item Hbuilt))
      as (processed' & Hbuilt' & Hlabels).
    exists processed'. split; [assumption|].
    rewrite Hlabels, map_app, <- app_assoc. reflexivity.
Qed.

(** On a sequence that never rises by more than one, the nesting of every
    node is its depth. *)
Lemma Built_run (items : list FilteredHeading) :
  forall st processed,
    Built st processed ->
    depthsCount (stack st) ->
    risesByOne (List.length (stack st)) (map depth items) ->
    Built (fold_left bstep items st)
      (processed ++ map (fun item => (labelOf item, depth item)) items).
Proof.
  induction items as [|item rest IH]; intros st processed Hbuilt Hcount Hrise;
    simpl.
  - now rewrite app_nil_r.
  - destruct Hrise as [Hd Hrest].
    destruct (popStack_depths (depth item) (stack st) Hcount Hd)
      as [Hlen Hcount'].
    pose proof (Built_step st processed item Hbuilt) as Hstep.
    rewrite Hlen in Hstep.
    specialize (IH _ _ Hstep). rewrite stack_buildStep in IH.
    simpl in IH. rewrite Hlen, <- app_assoc in IH.
    apply IH; [now split | exact Hrest].
Qed.

End BuildTree.

Lemma popStack_spec (d : nat) (entries : list StackEntry) :
  exists popped,
    entries = popped ++ popStack entries d
    /\ Forall (fun e => d <= se_depth e) popped
    /\ match popStack entries d with
       | [] => True
       | top :: _ => se_depth top < d
       end.
Proof.
  induction entries as [|e below (popped & Heq & Hall & Htop)]; simpl.
  - now exists [].
  - destruct (Nat.leb_spec d (se_depth e)) as [Hle | Hgt].
    + exists (e :: popped). repeat split; trivial.
      * simpl. now rewrite <- Heq.
      * now constructor.
    + exists []. repeat split; trivial.
Qed.

Lemma buildTree_risesByOne
    (fmt : string -> TableOfContentsOptions -> string)
    (o : TableOfContentsOptions) (flat : list FilteredHeading) :
  risesByOne 0 (map depth flat) ->
  exists forest,
    buildTree fmt o flat = Some forest
    /\ flattenForest 0 forest
       = map (fun item => (fmt (heading (fh_heading item)) o, depth item)) flat.
Proof.
  intros Hrise. unfold buildTree. apply Built_read.
  apply (Built_run fmt o flat initialState [] (Built_initial) I Hrise).
Qed.

Lemma buildTree_total
    (fmt : string -> TableOfContentsOptions -> string)
    (o : TableOfContentsOptions) (flat : list FilteredHeading) :
  exists forest,
    buildTree fmt o flat = Some forest
    /\ map fst (flattenForest 0 forest)
       = map (fun item => fmt (heading (fh_heading item)) o) flat.
Proof.
  destruct (Built_run_labels fmt o flat initialState [] Built_initial)
    as (processed & Hbuilt & Hlabels).
  destruct (Built_read _ _ Hbuilt) as (forest & Hread & Hflat).
  exists forest. split; [exact Hread | now rewrite Hflat].
Qed.

(** ** The filter: depths, order, include and exclude modes *)

(** C1.  For every heading list and configuration the depths that
    [getFilteredHeadings] assigns form a gap-free rooted-forest encoding: the
    first surviving heading has depth 0 and each depth is at most one more than
    the preceding one, so every heading of depth [d+1] has a still-open
    ancestor of depth [d] before it.  When the surviving headings have raw
    levels [1, 3, 3] the depths are [0, 1, 1]. *)
Theorem filtered_depths_gap_free :
  forall (isHeadingAllowed : string -> TableOfContentsOptions -> bool)
         (headings : list HeadingCache) (options : TableOfContentsOptions),
    let depths := map depth (getFilteredHeadings isHeadingAllowed headings options) in
    gapFree depths
    /\ (forall j dj d,
           nth_error depths j = Some dj -> d < dj ->
           exists i,
             i < j /\ nth_error depths i = Some d /\
             forall k dk, i < k <= j -> nth_error depths k = Some dk -> d < dk)
    /\ (map level (survivingHeadings isHeadingAllowed headings options)
          = [1; 3; 3]%Z ->
        depths = [0; 1; 1]).
Proof.
  intros isHeadingAllowed headings options depths.
  assert (Hgap : gapFree depths) by apply gapFree_getFilteredHeadings.
  split; [exact Hgap | split].
  - exact (gapFree_open_ancestor depths Hgap).
  - intros Hlevels. unfold depths.
    rewrite depths_getFilteredHeadings.
    now apply depths_of_levels_1_3_3.
Qed.

Lemma filtered_depths_gap_free_witness :
  map depth (getFilteredHeadings isHeadingAllowedSpec levels133 defaultOptions)
  = [0; 1; 1].
Proof.
  exact (proj2 (proj2
    (filtered_depths_gap_free isHeadingAllowedSpec levels133 defaultOptions))
    eq_refl).
Defined.

(** C4.  The filter never reorders: the headings of the result are the input
    restricted to the positions whose iteration reached the push, in input
    order; they form a subsequence of the input, and each of them passed the
    pattern test, the two level bounds and the empty-label test. *)
Theorem filter_keeps_input_order :
  forall (isHeadingAllowed : string -> TableOfContentsOptions -> bool)
         (headings : list HeadingCache) (options : TableOfContentsOptions),
    let kept := map fh_heading (getFilteredHeadings isHeadingAllowed headings options) in
    let minLvl := resolveMinLevel options headings in
    let verdicts := filterVerdicts isHeadingAllowed options minLvl 0%Z headings in
    List.length verdicts = List.length headings
    /\ kept = restrict verdicts headings
    /\ Subsequence kept headings
    /\ Forall (fun h => passesTests isHeadingAllowed options minLvl h = true) kept.
Proof.
  intros isHeadingAllowed headings options kept minLvl verdicts.
  assert (Hkept : kept = restrict verdicts headings).
  { unfold kept. rewrite headings_getFilteredHeadings.
    apply filterLoop_restrict. }
  split; [apply length_filterVerdicts | split; [exact Hkept | split]].
  - rewrite Hkept. apply restrict_Subsequence.
  - unfold kept. rewrite headings_getFilteredHeadings.
    apply filterLoop_passes.
Qed.

(** C2.  With no exclude pattern (include mode) nothing cascades: a heading
    survives exactly when it passes the tests itself, whatever happened to the
    headings before it.  On [(A,1),(B,2),(C,3),(D,1)] with an include pattern
    that matches A and C only, the result is A and C. *)
Theorem include_mode_is_independent :
  (forall (isHeadingAllowed : string -> TableOfContentsOptions -> bool)
          (headings : list HeadingCache) (options : TableOfContentsOptions),
      truthy (exclude options) = false ->
      map fh_heading (getFilteredHeadings isHeadingAllowed headings options)
      = filter
          (passesTests isHeadingAllowed options (resolveMinLevel options headings))
          headings)
  /\ map fh_heading (getFilteredHeadings isHeadingAllowedSpec sampleABCD includeAC)
     = [hA; hC].
Proof.
  split.
  - intros isHeadingAllowed headings options Hex.
    rewrite headings_getFilteredHeadings. unfold survivingHeadings.
    now rewrite filterLoop_no_exclude.
  - reflexivity.
Qed.

Lemma include_mode_is_independent_witness :
  truthy (exclude includeAC) = false
  /\ map fh_heading (getFilteredHeadings isHeadingAllowedSpec sampleABCD includeAC)
     = filter
         (passesTests isHeadingAllowedSpec includeAC
            (resolveMinLevel includeAC sampleABCD))
         sampleABCD.
Proof.
  split.
  - reflexivity.
  - apply (proj1 include_mode_is_independent). reflexivity.
Defined.

(** C3.  Under an exclude pattern, a heading (of level at least 1) that
    reaches the pattern test and fails it is skipped and starts a cascade:
    the headings after it whose level is strictly greater are skipped too, and
    the loop goes on with [unallowedLevel] set to the failing level; the next
    heading whose level is at most that level ends the exclusion and is
    treated as if none had been active.  On [(A,1),(B,2),(C,3),(D,1)] with an
    exclude pattern that matches B, the result is A and D. *)
Theorem exclude_mode_cascades :
  (forall (isHeadingAllowed : string -> TableOfContentsOptions -> bool)
          (options : TableOfContentsOptions)
          (before : list HeadingCache) (h : HeadingCache)
          (below rest : list HeadingCache),
      let headings := before ++ h :: below ++ rest in
      let minLvl := resolveMinLevel options headings in
      let reached := filterLoop isHeadingAllowed options minLvl 0%Z [] before in
      truthy (exclude options) = true ->
      (0 < level h)%Z ->
      (fst reached <= 0 \/ level h <= fst reached)%Z ->
      isHeadingAllowed (heading h) options = false ->
      Forall (fun x => (level h < level x)%Z) below ->
      filterLoop isHeadingAllowed options minLvl 0%Z [] headings
      = filterLoop isHeadingAllowed options minLvl (level h) (snd reached) rest
      /\ forall r rest',
           rest = r :: rest' -> (level r <= level h)%Z ->
           filterLoop isHeadingAllowed options minLvl 0%Z [] headings
           = filterLoop isHeadingAllowed options minLvl 0%Z (snd reached) rest)
  /\ map fh_heading (getFilteredHeadings isHeadingAllowedSpec sampleABCD excludeB)
     = [hA; hD].
Proof.
  split; [|reflexivity].
  intros isHeadingAllowed options before h below rest headings minLvl reached
    Hex Hpos Hreach Hfail Hbelow.
  assert (Hcascade :
    filterLoop isHeadingAllowed options minLvl 0%Z [] headings
    = filterLoop isHeadingAllowed options minLvl (level h) (snd reached) rest).
  { unfold headings. rewrite filterLoop_app. fold reached. simpl.
    rewrite filterStep_excluded; trivial.
    - now apply filterLoop_cascade.
    - destruct Hreach as [Hle | Hle].
      + replace (fst reached >? 0)%Z with false; [reflexivity|].
        symmetry. rewrite Z.gtb_ltb. apply Z.ltb_ge. lia.
      + replace (level h >? fst reached)%Z with false; [apply andb_false_r|].
        symmetry. rewrite Z.gtb_ltb. apply Z.ltb_ge. lia. }
  split; [exact Hcascade|].
  intros r rest' -> Hr. rewrite Hcascade. simpl.
  now rewrite (filterStep_scope_end isHeadingAllowed options minLvl (level h) r Hr).
Qed.

Lemma exclude_mode_cascades_witness :
  filterLoop isHeadingAllowedSpec excludeB (resolveMinLevel excludeB sampleABCD)
    0%Z [] sampleABCD
  = filterLoop isHeadingAllowedSpec excludeB (resolveMinLevel excludeB sampleABCD)
      0%Z [hA] [hD].
Proof.
  refine (proj2 (proj1 exclude_mode_cascades isHeadingAllowedSpec excludeB
                   [hA] hB [hC] [hD] eq_refl _ _ eq_refl _) hD [] eq_refl _).
  - reflexivity.
  - left. simpl. lia.
  - repeat constructor.
  - simpl. lia.
Defined.

(** ** The markdown builders *)

(** C6.  For the two nested list styles the builder emits one line per
    filtered heading: the indent unit repeated [depth] times, the marker
    (["-"], or ["1."] when ordered), a space and the formatted label; the lines
    are joined by a newline.  An empty filtered list gives the "no content"
    sentinel [None]; the builder never returns the empty string. *)
Theorem nested_list_lines :
  forall (isHeadingAllowed : string -> TableOfContentsOptions -> bool)
         (getFormattedMarkdownHeading : string -> TableOfContentsOptions -> string)
         (headings : list HeadingCache) (isOrdered : bool)
         (options : TableOfContentsOptions),
    let filtered := getFilteredHeadings isHeadingAllowed headings options in
    let marker := if isOrdered then "1." else "-" in
    let line item :=
      String.append (repeatString tab (depth item))
        (String.append marker
           (String.append " "
              (getFormattedMarkdownHeading (heading (fh_heading item)) options))) in
    let result :=
      getMarkdownListFromHeadings isHeadingAllowed getFormattedMarkdownHeading
        headings isOrdered options in
    result = match filtered with
             | [] => None
             | _ :: _ => Some (join newline (map line filtered))
             end
    /\ match result with
       | None => filtered = []
       | Some markdown => 0 < String.length markdown
       end.
Proof.
  intros isHeadingAllowed fmt headings isOrdered options filtered marker line result.
  assert (Hresult :
    result = match filtered with
             | [] => None
             | _ :: _ => Some (join newline (map line filtered))
             end).
  { unfold result, getMarkdownListFromHeadings. fold filtered.
    destruct filtered as [|item rest]; reflexivity. }
  split; [exact Hresult|].
  rewrite Hresult. destruct filtered as [|item rest]; [reflexivity|].
  simpl map.
  pose proof (length_join_cons newline (line item) (map line rest)) as Hjoin.
  pose proof (length_listLine fmt marker options item) as Hline.
  change (listLine fmt marker options item) with (line item) in Hline.
  lia.
Qed.

(** C7.  [getMarkdownFromHeadings] puts a non-empty title before the body,
    followed by a newline for the list styles and by one space for the inline
    style.  When the style handler signals no content, as every handler does
    on an empty heading list, the result is the empty string if
    [hideWhenEmpty] is set and otherwise the title part followed by the
    literal notice.  The function is total: it returns a string on every
    input. *)
Theorem title_and_empty_state :
  forall (isHeadingAllowed : string -> TableOfContentsOptions -> bool)
         (getFormattedMarkdownHeading : string -> TableOfContentsOptions -> string)
         (headings : list HeadingCache) (options : TableOfContentsOptions),
    let separator :=
      match style options with
      | inlineFirstLevel => " "
      | nestedList | nestedOrderedList => newline
      end in
    let titlePart :=
      if String.eqb (title options) "" then ""
      else String.append (title options) separator in
    let emptyState :=
      if hideWhenEmpty options then ""
      else String.append titlePart "_Table of contents: no headings found_" in
    let render :=
      getMarkdownFromHeadings isHeadingAllowed getFormattedMarkdownHeading in
    let handler :=
      markdownHandlersByStyle isHeadingAllowed getFormattedMarkdownHeading
        (style options) in
    render headings options
    = match handler headings options with
      | Some body => String.append titlePart body
      | None => emptyState
      end
    /\ handler [] options = None
    /\ render [] options = emptyState.
Proof.
  intros isHeadingAllowed fmt headings options separator titlePart emptyState
    render handler.
  assert (Hrender : forall hs,
    render hs options
    = match handler hs options with
      | Some body => String.append titlePart body
      | None => emptyState
      end).
  { intros hs. unfold render, getMarkdownFromHeadings. fold handler.
    rewrite length_zero_empty. unfold emptyState, titlePart, separator.
    destruct (String.eqb (title options) ""); simpl;
      destruct (style options); reflexivity. }
  assert (Hempty : handler [] options = None).
  { unfold handler. destruct (style options); reflexivity. }
  split; [apply Hrender | split; [exact Hempty|]].
  now rewrite Hrender, Hempty.
Qed.

(** C8.  For the inline style the effective minimum level is
    [options.minLevel] when positive and otherwise the least level of the
    whole input; the builder selects the headings at exactly that level whose
    label is not empty and passes the pattern test, each heading on its own
    (a plain [filter], whatever the filter mode), formats them and joins them
    with [" | "]; an empty selection gives [None].  On [(A,1),(B,2),(C,1)]
    with automatic minimum level the result joins A and C and omits B. *)
Theorem inline_first_level :
  forall (isHeadingAllowed : string -> TableOfContentsOptions -> bool)
         (getFormattedMarkdownHeading : string -> TableOfContentsOptions -> string)
         (headings : list HeadingCache) (options : TableOfContentsOptions),
    let minLvl := resolveMinLevel options headings in
    let selected :=
      filter (fun h => eqNumber (level h) minLvl
                       && negb (String.eqb (heading h) "")
                       && isHeadingAllowed (heading h) options) headings in
    let format h := getFormattedMarkdownHeading (heading h) options in
    minLvl = (if (0 <? minLevel options)%Z then Finite (minLevel options)
              else mathMin (map level headings))
    /\ match mathMin (map level headings) with
       | PosInfinity => headings = []
       | Finite m =>
           In m (map level headings)
           /\ Forall (fun h => (m <= level h)%Z) headings
       end
    /\ getMarkdownInlineFirstLevelFromHeadings isHeadingAllowed
         getFormattedMarkdownHeading headings options
       = match selected with
         | [] => None
         | _ :: _ => Some (join " | " (map format selected))
         end
    /\ getMarkdownInlineFirstLevelFromHeadings isHeadingAllowedSpec
         getFormattedMarkdownHeading sampleACflat inlineOptions
       = Some (String.append (getFormattedMarkdownHeading "A" inlineOptions)
                 (String.append " | "
                    (getFormattedMarkdownHeading "C" inlineOptions))).
Proof.
  intros isHeadingAllowed fmt headings options minLvl selected format.
  split; [|split; [|split]].
  - unfold minLvl, resolveMinLevel. now rewrite Z.gtb_ltb.
  - pose proof (mathMin_spec (map level headings)) as Hmin.
    destruct (mathMin (map level headings)) as [m|].
    + destruct Hmin as [Hin Hall]. split; [exact Hin|].
      rewrite Forall_map in Hall. exact Hall.
    + now destruct headings.
  - unfold getMarkdownInlineFirstLevelFromHeadings. fold minLvl.
    assert (Hsel :
      filter (fun h => isHeadingAllowed (heading h) options)
        (filter (fun h => Nat.ltb 0 (String.length (heading h)))
           (filter (fun h => eqNumber (level h) minLvl) headings))
      = selected).
    { rewrite !filter_filter. unfold selected. apply filter_ext. intros h.
      cbv beta. rewrite length_zero_empty. apply andb_assoc. }
    rewrite Hsel. fold format.
    destruct selected as [|h rest]; reflexivity.
  - reflexivity.
Qed.

(** ** The foldable path: link translation *)

(** C9.  In the foldable path a label is scanned from left to right and cut
    into copied characters and links of the shape [[[#target|display]]]; each
    link is replaced by an anchor element that embeds the escaped target and
    the escaped display text.  Escaping rewrites every ["&"], ["<"], [">"] and
    double quote, one character at a time, into [&amp;], [&lt;], [&gt;] and
    [&quot;], so the escaped text holds no raw ["<"], [">"] or double quote. *)
Theorem links_become_escaped_anchors :
  (forall text, escapeHtml text = escapeEach text)
  /\ (escapeChar ampersand = "&amp;" /\ escapeChar lessThan = "&lt;"
      /\ escapeChar greaterThan = "&gt;" /\ escapeChar doubleQuote = "&quot;")
  /\ (forall text,
         occurs lessThan (escapeHtml text) = false
         /\ occurs greaterThan (escapeHtml text) = false
         /\ occurs doubleQuote (escapeHtml text) = false)
  /\ (forall target display rest before,
         wellShaped target display ->
         occurs openBracket before = false ->
         wikitextToHtml (String.append before (wikilink target display rest))
         = String.append before
             (String.append
                (anchorMarkup (escapeHtml target) (escapeHtml display))
                (wikitextToHtml rest)))
  /\ (forall text,
         exists segments,
           sourceOf segments = text /\ scanned segments
           /\ wikitextToHtml text = markupOf segments).
Proof.
  split; [exact escapeHtml_each | split; [now repeat split | split; [|split]]].
  - intros text. rewrite escapeHtml_each. apply escapeEach_clean.
  - intros target display rest before Hshape Hbefore.
    rewrite wikitextToHtml_plain_prefix by assumption.
    rewrite wikitextToHtml_link by assumption.
    now rewrite anchor_markup, !escapeHtml_each.
  - intros text.
    destruct (segmentation (String.length text) text (le_n _))
      as (segments & Hsrc & Hscan).
    exists segments. repeat split; trivial.
    rewrite <- Hsrc at 1. now apply wikitextToHtml_scanned.
Qed.

Lemma links_become_escaped_anchors_witness :
  wikitextToHtml (String.append "See " (wikilink "R&D" "a<b" " now"))
  = String.append "See "
      (String.append (anchorMarkup "R&amp;D" "a&lt;b") (wikitextToHtml " now")).
Proof.
  refine (proj1 (proj2 (proj2 (proj2 links_become_escaped_anchors)))
            "R&D" "a<b" " now" "See " _ eq_refl).
  repeat split; try reflexivity; discriminate.
Defined.

(** C10.  [wikitextToHtml] copies everything that is not a two-part link: a
    character at which no link starts is emitted as it is, a label without any
    link is returned unchanged, and so is a label without ["|"], which covers
    the bare link [[[#target]]]; ["&"], ["<"], [">"] and double quotes outside
    a link, before it or after it, reach the [innerHTML] of the list item or
    of the summary without escaping. *)
Theorem text_outside_links_is_verbatim :
  (forall c s,
      ~ startsWithLink (String c s) ->
      wikitextToHtml (String c s) = String c (wikitextToHtml s))
  /\ (forall s, ~ containsLink s -> wikitextToHtml s = s)
  /\ (forall s, occurs pipe s = false -> wikitextToHtml s = s)
  /\ (forall s, occurs openBracket s = false -> wikitextToHtml s = s)
  /\ (forall before s,
         occurs openBracket before = false ->
         wikitextToHtml (String.append before s)
         = String.append before (wikitextToHtml s))
  /\ (forall before target display after,
         wellShaped target display ->
         occurs openBracket before = false ->
         occurs pipe after = false ->
         wikitextToHtml (String.append before (wikilink target display after))
         = String.append before
             (String.append
                (anchorMarkup (escapeHtml target) (escapeHtml display)) after))
  /\ wikitextToHtml "[[#Target]]" = "[[#Target]]"
  /\ wikitextToHtml specialCharacters = specialCharacters
  /\ (forall isOrdered s,
         occurs pipe s = false ->
         renderNode isOrdered (Node s []) = Element "li" [] [RawHtml s])
  /\ (forall isOrdered s child siblings,
         occurs pipe s = false ->
         renderNode isOrdered (Node s (child :: siblings))
         = Element "li" []
             [Element "details" [("open", "")]
                [Element "summary" [] [RawHtml s];
                 Element (listTag isOrdered) []
                   (map (renderNode isOrdered) (child :: siblings))]]).
Proof.
  assert (Hpipe : forall s, occurs pipe s = false -> wikitextToHtml s = s).
  { intros s Hs. apply wikitextToHtml_identity. intros Hlink.
    apply containsLink_pipe in Hlink. congruence. }
  repeat match goal with |- _ /\ _ => split end.
  - exact wikitextToHtml_skip.
  - exact wikitextToHtml_identity.
  - exact Hpipe.
  - intros s Hs. apply wikitextToHtml_identity. intros Hlink.
    apply containsLink_bracket in Hlink. congruence.
  - exact wikitextToHtml_plain_prefix.
  - intros before target display after Hshape Hbefore Hafter.
    rewrite wikitextToHtml_plain_prefix by assumption.
    rewrite wikitextToHtml_link by assumption.
    now rewrite anchor_markup, !escapeHtml_each, Hpipe.
  - now apply Hpipe.
  - now apply Hpipe.
  - intros isOrdered s Hs. simpl. now rewrite Hpipe.
  - intros isOrdered s child siblings Hs. cbn [renderNode]. now rewrite Hpipe.
Qed.

Lemma text_outside_links_is_verbatim_witness :
  wikitextToHtml "[[#Bare]] & <b>" = "[[#Bare]] & <b>".
Proof.
  exact (proj1 (proj2 (proj2 text_outside_links_is_verbatim))
           "[[#Bare]] & <b>" eq_refl).
Defined.

(** ** The foldable path: the tree builder *)

(** C5.  For every sequence that the filter produces, [buildTree] returns a
    forest that lists, in pre-order, exactly the formatted labels of the
    sequence, each nested under as many nodes as its depth says.  The forest
    is built as the specification describes: entries whose stored depth is at
    least the current depth are popped, the new node becomes the last child of
    the entry then on top (or the last root when the stack is empty), and it
    is pushed with its depth.  On any sequence at all [buildTree] returns a
    forest with one node per element, in input order. *)
Theorem tree_nesting_matches_depths :
  forall (isHeadingAllowed : string -> TableOfContentsOptions -> bool)
         (getFormattedMarkdownHeading : string -> TableOfContentsOptions -> string)
         (headings : list HeadingCache) (options : TableOfContentsOptions),
    let filtered := getFilteredHeadings isHeadingAllowed headings options in
    let label item :=
      getFormattedMarkdownHeading (heading (fh_heading item)) options in
    let step := buildStep getFormattedMarkdownHeading options in
    (exists forest,
        buildTree getFormattedMarkdownHeading options filtered = Some forest
        /\ flattenForest 0 forest
           = map (fun item => (label item, depth item)) filtered)
    /\ (forall flat,
           exists forest,
             buildTree getFormattedMarkdownHeading options flat = Some forest
             /\ map fst (flattenForest 0 forest) = map label flat)
    /\ (forall st item,
           let node := List.length (store st) in
           let objects := store st ++ [mkObject (label item) []] in
           let entries := popStack (stack st) (depth item) in
           (exists popped,
               stack st = popped ++ entries
               /\ Forall (fun e => depth item <= se_depth e) popped
               /\ match entries with
                  | [] => True
                  | top :: _ => se_depth top < depth item
                  end)
           /\ stack (step st item) = mkEntry node (depth item) :: entries
           /\ match entries with
              | [] =>
                  roots (step st item) = roots st ++ [node]
                  /\ store (step st item) = objects
              | top :: _ =>
                  roots (step st item) = roots st
                  /\ store (step st item)
                     = updateAt
                         (fun o => mkObject (obj_text o) (obj_children o ++ [node]))
                         (se_node top) objects
              end).
Proof.
  intros isHeadingAllowed fmt headings options filtered label step.
  split; [|split].
  - apply buildTree_risesByOne. unfold filtered.
    rewrite depths_getFilteredHeadings.
    exact (risesByOne_depthsLoop _ []).
  - intros flat. apply buildTree_total.
  - intros st item node objects entries. split; [apply popStack_spec|].
    unfold step, buildStep. fold node. fold entries.
    destruct entries as [|top below]; simpl; repeat split.
Qed.

Example buildTree_sample :
  buildTree (fun text _ => text) defaultOptions
    [mkFiltered hA 0; mkFiltered hB 1; mkFiltered hC 2; mkFiltered hD 1;
     mkFiltered (mkHeading "E" 1 4) 0]
  = Some [Node "A" [Node "B" [Node "C" []]; Node "D" []]; Node "E" []].
Proof. reflexivity. Qed.

(** ** Further properties of [computeNormalizedDepths] *)

Lemma depthsLoop_app (l1 : list HeadingCache) :
  forall levelStack l2,
    depthsLoop levelStack [] (l1 ++ l2)
    = depthsLoop levelStack [] l1
      ++ depthsLoop (levelStackAfter levelStack l1) [] l2.
Proof.
  induction l1 as [|h rest IH]; intros levelStack l2.
  - reflexivity.
  - change ((h :: rest) ++ l2) with (h :: (rest ++ l2)).
    rewrite (depthsLoop_cons h (rest ++ l2)), (depthsLoop_cons h rest), IH.
    reflexivity.
Qed.

Lemma levelStackAfter_app (l1 : list HeadingCache) :
  forall levelStack l2,
    levelStackAfter levelStack (l1 ++ l2)
    = levelStackAfter (levelStackAfter levelStack l1) l2.
Proof.
  induction l1 as [|h rest IH]; intros levelStack l2; simpl; trivial.
Qed.

(** The depth of the heading at a given position, read off the stack. *)
Lemma depth_at (before : list HeadingCache) (h : HeadingCache)
    (after : list HeadingCache) :
  nth_error (computeNormalizedDepths (before ++ h :: after))
    (List.length before)
  = Some (List.length (popLevels (levelStackAfter [] before) (level h))).
Proof.
  unfold computeNormalizedDepths. rewrite depthsLoop_app.
  rewrite nth_error_app2 by (rewrite length_depthsLoop; simpl; lia).
  rewrite length_depthsLoop. simpl List.length.
  rewrite Nat.sub_diag, depthsLoop_cons. reflexivity.
Qed.

Lemma nth_error_decompose {A : Type} (l : list A) :
  forall i x,
    nth_error l i = Some x ->
    exists before after, l = before ++ x :: after /\ List.length before = i.
Proof.
  induction l as [|y l IH]; intros [|i] x H; simpl in H; try discriminate.
  - injection H as ->. now exists [], l.
  - destruct (IH _ _ H) as (before & after & -> & Hlen).
    exists (y :: before), after. simpl. now rewrite Hlen.
Qed.

Lemma popLevels_below (levelStack : list Z) (lvl : Z) :
  descending levelStack ->
  Forall (fun x => (x < lvl)%Z) (popLevels levelStack lvl).
Proof.
  induction levelStack as [|top below IH]; intros Hdesc; simpl.
  - constructor.
  - destruct Hdesc as [Hbelow Hdesc].
    destruct (top >=? lvl)%Z eqn:Htop; [now apply IH|].
    rewrite Z.geb_leb in Htop. apply Z.leb_gt in Htop.
    constructor; [assumption|].
    apply Forall_impl with (P := fun x => (x < top)%Z); [intros; lia | exact Hbelow].
Qed.

Lemma popLevels_descending (levelStack : list Z) (lvl : Z) :
  descending levelStack -> descending (popLevels levelStack lvl).
Proof.
  induction levelStack as [|top below IH]; intros Hdesc; simpl; trivial.
  destruct (top >=? lvl)%Z; [apply IH; exact (proj2 Hdesc) | exact Hdesc].
Qed.

Lemma levelStackAfter_descending (hs : list HeadingCache) :
  forall levelStack,
    descending levelStack -> descending (levelStackAfter levelStack hs).
Proof.
  induction hs as [|h rest IH]; intros levelStack Hdesc; simpl; trivial.
  apply IH. split; [now apply popLevels_below | now apply popLevels_descending].
Qed.

(** A level above the top entry pops nothing; a level equal to it pops that
    entry alone. *)
Lemma popLevels_above (top : Z) (below : list Z) (lvl : Z) :
  (top < lvl)%Z -> popLevels (top :: below) lvl = top :: below.
Proof.
  intros H. simpl. replace (top >=? lvl)%Z with false; trivial.
  symmetry. rewrite Z.geb_leb. apply Z.leb_gt. lia.
Qed.

Lemma popLevels_all_below (levelStack : list Z) (lvl : Z) :
  Forall (fun x => (x < lvl)%Z) levelStack -> popLevels levelStack lvl = levelStack.
Proof.
  intros H. destruct H as [|top below Htop _]; [reflexivity|].
  now apply popLevels_above.
Qed.

Lemma popLevels_at_or_under (top : Z) (below : list Z) (lvl : Z) :
  (lvl <= top)%Z -> popLevels (top :: below) lvl = popLevels below lvl.
Proof.
  intros H. simpl. replace (top >=? lvl)%Z with true; trivial.
  symmetry. rewrite Z.geb_leb. apply Z.leb_le. lia.
Qed.

(** X1.  Two headings in a row: when the second has a strictly greater level
    it lies exactly one deeper than the first; when it has the same level it
    lies at the same depth; when its level is smaller or equal it never lies
    deeper. *)
Theorem consecutive_depths :
  forall (hs : list HeadingCache) (i : nat) (a b : HeadingCache) (da db : nat),
    nth_error hs i = Some a ->
    nth_error hs (S i) = Some b ->
    nth_error (computeNormalizedDepths hs) i = Some da ->
    nth_error (computeNormalizedDepths hs) (S i) = Some db ->
    ((level a < level b)%Z -> db = S da)
    /\ (level b = level a -> db = da)
    /\ ((level b <= level a)%Z -> db <= da).
Proof.
  intros hs i a b da db Ha Hb Hda Hdb.
  destruct (nth_error_decompose hs i a Ha) as (before & after & -> & Hlen).
  subst i. destruct after as [|b' after].
  { rewrite nth_error_app2 in Hb by lia.
    replace (S (List.length before) - List.length before) with 1 in Hb by lia.
    discriminate. }
  assert (b' = b).
  { rewrite nth_error_app2 in Hb by lia.
    replace (S (List.length before) - List.length before) with 1 in Hb by lia.
    simpl in Hb. congruence. }
  subst b'.
  rewrite depth_at in Hda. injection Hda as <-.
  replace (before ++ a :: b :: after) with ((before ++ [a]) ++ b :: after) in Hdb
    by now rewrite <- app_assoc.
  replace (S (List.length before)) with (List.length (before ++ [a])) in Hdb
    by (rewrite length_app; simpl; lia).
  rewrite depth_at, levelStackAfter_app in Hdb.
  set (st := levelStackAfter [] before) in *.
  change (levelStackAfter st [a]) with (level a :: popLevels st (level a)) in Hdb.
  assert (Hdb' : db = List.length
                        (popLevels (level a :: popLevels st (level a)) (level b)))
    by congruence.
  clear Hdb. subst db.
  assert (Hdesc : descending st)
    by (apply levelStackAfter_descending; exact I).
  pose proof (popLevels_below st (level a) Hdesc) as Hbelow.
  repeat split.
  - intros Hlt. now rewrite popLevels_above.
  - intros Heq. rewrite popLevels_at_or_under by lia.
    rewrite Heq. now rewrite popLevels_all_below.
  - intros Hle. rewrite popLevels_at_or_under by lia.
    etransitivity; [apply length_popLevels|]. lia.
Qed.

Lemma consecutive_depths_witness :
  (nth_error levels133 0 = Some (mkHeading "Title" 1 0)
   /\ nth_error levels133 1 = Some (mkHeading "Deep one" 3 1)
   /\ nth_error (computeNormalizedDepths levels133) 0 = Some 0
   /\ nth_error (computeNormalizedDepths levels133) 1 = Some 1)
  /\ 1 = 1.
Proof.
  split; [repeat split|].
  refine (proj1 (consecutive_depths levels133 0 (mkHeading "Title" 1 0)
                   (mkHeading "Deep one" 3 1) 0 1
                   eq_refl eq_refl eq_refl eq_refl) _).
  simpl. lia.
Defined.

Lemma popLevels_In (levelStack : list Z) (lvl x : Z) :
  In x (popLevels levelStack lvl) -> In x levelStack.
Proof.
  induction levelStack as [|top below IH]; simpl; trivial.
  destruct (top >=? lvl)%Z; [intros H; right; now apply IH | trivial].
Qed.

Lemma popLevels_popped (levelStack : list Z) (lvl x : Z) :
  In x levelStack -> In x (popLevels levelStack lvl) \/ (lvl <= x)%Z.
Proof.
  induction levelStack as [|top below IH]; simpl; [tauto|].
  destruct (top >=? lvl)%Z eqn:Htop; [|now left].
  rewrite Z.geb_leb in Htop. apply Z.leb_le in Htop.
  intros [-> | Hin]; [now right | now apply IH].
Qed.

Lemma popLevels_nil_iff (levelStack : list Z) (lvl : Z) :
  popLevels levelStack lvl = []
  <-> Forall (fun x => (lvl <= x)%Z) levelStack.
Proof.
  induction levelStack as [|top below IH]; simpl.
  - split; [constructor | reflexivity].
  - destruct (top >=? lvl)%Z eqn:Htop; rewrite Z.geb_leb in Htop.
    + apply Z.leb_le in Htop. rewrite IH. split.
      * now constructor.
      * intros H. now inversion H.
    + apply Z.leb_gt in Htop. split; [discriminate|].
      intros H. inversion H; subst. lia.
Qed.

(** Every entry of the stack is a level that was pushed, and every level
    that was pushed is still bounded below by an entry. *)
Lemma levelStackAfter_In (hs : list HeadingCache) :
  forall levelStack x,
    In x (levelStackAfter levelStack hs) ->
    In x levelStack \/ In x (map level hs).
Proof.
  induction hs as [|h rest IH]; intros levelStack x Hin; simpl in *.
  - now left.
  - destruct (IH _ _ Hin) as [[<- | Hpop] | Hrest].
    + right. now left.
    + left. now apply popLevels_In in Hpop.
    + right. now right.
Qed.

Lemma levelStackAfter_covers (hs : list HeadingCache) :
  forall levelStack x,
    In x levelStack \/ In x (map level hs) ->
    exists s, In s (levelStackAfter levelStack hs) /\ (s <= x)%Z.
Proof.
  induction hs as [|h rest IH]; intros levelStack x Hin; simpl in *.
  - destruct Hin as [Hin | []]. exists x. split; [assumption | lia].
  - destruct Hin as [Hst | [<- | Hrest]].
    + destruct (popLevels_popped levelStack (level h) x Hst) as [Hkept | Hle].
      * apply IH. left. now right.
      * destruct (IH (level h :: popLevels levelStack (level h)) (level h))
          as (s & Hs & Hsle); [left; now left|].
        exists s. split; [assumption | lia].
    + apply IH. left. now left.
    + apply IH. now right.
Qed.

(** X2.  A heading lies at depth 0 exactly when no heading before it has a
    strictly smaller level. *)
Theorem depth_zero_iff_lowest_so_far :
  forall (hs : list HeadingCache) (j : nat) (h : HeadingCache) (d : nat),
    nth_error hs j = Some h ->
    nth_error (computeNormalizedDepths hs) j = Some d ->
    (d = 0 <->
     forall i x, i < j -> nth_error hs i = Some x -> (level h <= level x)%Z).
Proof.
  intros hs j h d Hh Hd.
  destruct (nth_error_decompose hs j h Hh) as (before & after & -> & Hlen).
  subst j. rewrite depth_at in Hd. injection Hd as <-.
  rewrite length_zero_iff_nil, popLevels_nil_iff, Forall_forall. split.
  - intros Hst i x Hi Hx. rewrite nth_error_app1 in Hx by assumption.
    apply nth_error_In in Hx.
    destruct (levelStackAfter_covers before [] (level x)) as (s & Hs & Hle).
    { right. now apply in_map. }
    specialize (Hst s Hs). lia.
  - intros Hbefore s Hs.
    apply levelStackAfter_In in Hs as [[] | Hs].
    apply in_map_iff in Hs as (x & <- & Hx).
    apply In_nth_error in Hx as (i & Hi).
    apply (Hbefore i x).
    + apply nth_error_Some. congruence.
    + rewrite nth_error_app1; [assumption|].
      apply nth_error_Some. congruence.
Qed.

Lemma depth_zero_iff_lowest_so_far_witness :
  (nth_error levels133 1 = Some (mkHeading "Deep one" 3 1)
   /\ nth_error (computeNormalizedDepths levels133) 1 = Some 1)
  /\ (1 = 0 <->
      forall i x, i < 1 -> nth_error levels133 i = Some x ->
                  (level (mkHeading "Deep one" 3 1) <= level x)%Z).
Proof.
  split; [now split|].
  exact (depth_zero_iff_lowest_so_far levels133 1 (mkHeading "Deep one" 3 1) 1
           eq_refl eq_refl).
Defined.

Lemma descending_length (m l : Z) (levelStack : list Z) :
  (m <= l)%Z ->
  descending levelStack ->
  Forall (fun s => (m <= s < l)%Z) levelStack ->
  (Z.of_nat (List.length levelStack) <= l - m)%Z.
Proof.
  revert l. induction levelStack as [|top below IH]; intros l Hml Hdesc Hall.
  - simpl. lia.
  - destruct Hdesc as [Hbelow Hdesc]. inversion Hall as [|? ? Htop Hrest]; subst.
    assert (Hlen : (Z.of_nat (List.length below) <= top - m)%Z).
    { apply IH; [lia | assumption |]. rewrite Forall_forall in *.
      intros s Hs. specialize (Hbelow s Hs). specialize (Hrest s Hs). lia. }
    simpl List.length. lia.
Qed.

(** X3.  Normalisation never indents more than the raw levels would: the
    depth of a heading is at most its level minus any lower bound of the
    levels in the list. *)
Theorem depth_at_most_level_difference :
  forall (hs : list HeadingCache) (j : nat) (h : HeadingCache) (d : nat) (m : Z),
    nth_error hs j = Some h ->
    nth_error (computeNormalizedDepths hs) j = Some d ->
    Forall (fun x => (m <= level x)%Z) hs ->
    (Z.of_nat d <= level h - m)%Z.
Proof.
  intros hs j h d m Hh Hd Hm.
  destruct (nth_error_decompose hs j h Hh) as (before & after & -> & Hlen).
  subst j. rewrite depth_at in Hd. injection Hd as <-.
  assert (Hdesc : descending (levelStackAfter [] before))
    by (apply levelStackAfter_descending; exact I).
  apply descending_length.
  - rewrite Forall_forall in Hm. apply Hm. apply in_or_app. right. now left.
  - now apply popLevels_descending.
  - pose proof (popLevels_below _ (level h) Hdesc) as Hbelow.
    rewrite Forall_forall in *. intros s Hs. split; [|now apply Hbelow].
    apply popLevels_In, levelStackAfter_In in Hs as [[] | Hs].
    apply in_map_iff in Hs as (x & <- & Hx).
    apply Hm. apply in_or_app. now left.
Qed.

Lemma depth_at_most_level_difference_witness :
  (nth_error levels133 2 = Some (mkHeading "Deep two" 3 2)
   /\ nth_error (computeNormalizedDepths levels133) 2 = Some 1
   /\ Forall (fun x => (1 <= level x)%Z) levels133)
  /\ (Z.of_nat 1 <= level (mkHeading "Deep two" 3 2) - 1)%Z.
Proof.
  assert (H : Forall (fun x => (1 <= level x)%Z) levels133)
    by (repeat constructor; simpl; lia).
  split; [now repeat split|].
  exact (depth_at_most_level_difference levels133 2 (mkHeading "Deep two" 3 2)
           1 1%Z eq_refl eq_refl H).
Defined.

Lemma popLevels_map (f : Z -> Z) (levelStack : list Z) (lvl : Z) :
  (forall x y, (x < y)%Z -> (f x < f y)%Z) ->
  popLevels (map f levelStack) (f lvl) = map f (popLevels levelStack lvl).
Proof.
  intros Hmono. induction levelStack as [|top below IH]; simpl; trivial.
  assert (Hsame : (f top >=? f lvl)%Z = (top >=? lvl)%Z).
  { rewrite !Z.geb_leb.
    destruct (Z.leb_spec lvl top) as [Hle | Hgt].
    - apply Z.leb_le. destruct (Z.eq_dec lvl top) as [-> | Hne]; [lia|].
      specialize (Hmono lvl top ltac:(lia)). lia.
    - apply Z.leb_gt. now apply Hmono. }
  rewrite Hsame. destruct (top >=? lvl)%Z; [exact IH | reflexivity].
Qed.

Lemma depthsLoop_map (f : Z -> Z) (hs : list HeadingCache) :
  (forall x y, (x < y)%Z -> (f x < f y)%Z) ->
  forall levelStack depths,
    depthsLoop (map f levelStack) depths (map (relevel f) hs)
    = depthsLoop levelStack depths hs.
Proof.
  intros Hmono. induction hs as [|h rest IH]; intros levelStack depths; simpl.
  - reflexivity.
  - rewrite popLevels_map by assumption. rewrite length_map.
    exact (IH (level h :: popLevels levelStack (level h)) _).
Qed.

(** X4.  Only the order of the levels matters: mapping every level through a
    strictly increasing function (shifting all headings one level down, say)
    leaves the depths unchanged. *)
Theorem depths_invariant_under_releveling :
  forall (f : Z -> Z) (hs : list HeadingCache),
    (forall x y, (x < y)%Z -> (f x < f y)%Z) ->
    computeNormalizedDepths (map (relevel f) hs) = computeNormalizedDepths hs.
Proof.
  intros f hs Hmono. unfold computeNormalizedDepths.
  exact (depthsLoop_map f hs Hmono [] []).
Qed.

Lemma depths_invariant_under_releveling_witness :
  (forall x y, (x < y)%Z -> (x + 1 < y + 1)%Z)
  /\ computeNormalizedDepths (map (relevel (fun z => (z + 1)%Z)) levels133)
     = computeNormalizedDepths levels133.
Proof.
  assert (H : forall x y, (x < y)%Z -> (x + 1 < y + 1)%Z) by (intros; lia).
  split; [exact H|].
  exact (depths_invariant_under_releveling (fun z => (z + 1)%Z) levels133 H).
Defined.

Lemma popLevels_keep (l : Z) (below : list Z) (lvl : Z) (above : list Z) :
  Forall (fun x => (l < x)%Z) above -> (l < lvl)%Z ->
  exists above',
    popLevels (above ++ l :: below) lvl = above' ++ l :: below
    /\ Forall (fun x => (l < x)%Z) above'.
Proof.
  intros Habove Hlvl. induction Habove as [|top above Htop Habove IH].
  - exists []. split; [now apply popLevels_above | constructor].
  - simpl. destruct (top >=? lvl)%Z; [exact IH|].
    exists (top :: above). split; [reflexivity | now constructor].
Qed.

Lemma popLevels_through (l : Z) (below : list Z) (lvl : Z) (above : list Z) :
  Forall (fun x => (l < x)%Z) above -> (lvl <= l)%Z ->
  popLevels (above ++ l :: below) lvl = popLevels below lvl.
Proof.
  intros Habove Hlvl. induction Habove as [|top above Htop Habove IH].
  - now apply popLevels_at_or_under.
  - simpl app. rewrite popLevels_at_or_under by lia. exact IH.
Qed.

(** Headings of a greater level never pop the entry of level [l]. *)
Lemma levelStackAfter_keep (l : Z) (below : list Z) (inside : list HeadingCache) :
  Forall (fun x => (l < level x)%Z) inside ->
  forall above,
    Forall (fun x => (l < x)%Z) above ->
    exists above',
      levelStackAfter (above ++ l :: below) inside = above' ++ l :: below
      /\ Forall (fun x => (l < x)%Z) above'.
Proof.
  intros Hinside. induction Hinside as [|h inside Hh Hinside IH];
    intros above Habove; simpl.
  - now exists above.
  - destruct (popLevels_keep l below (level h) above Habove Hh)
      as (above1 & -> & Habove1).
    apply (IH (level h :: above1)). now constructor.
Qed.

(** X5.  The scope of a heading: as long as every heading after it has a
    strictly greater level, those headings lie strictly deeper than it; the
    first later heading whose level is not greater does not lie deeper. *)
Theorem heading_scope :
  forall (hs : list HeadingCache) (i j : nat) (hi hj : HeadingCache)
         (di dj : nat),
    i < j ->
    nth_error hs i = Some hi ->
    nth_error hs j = Some hj ->
    nth_error (computeNormalizedDepths hs) i = Some di ->
    nth_error (computeNormalizedDepths hs) j = Some dj ->
    (forall k x, i < k -> k < j -> nth_error hs k = Some x ->
                 (level hi < level x)%Z) ->
    ((level hi < level hj)%Z -> di < dj)
    /\ ((level hj <= level hi)%Z -> dj <= di).
Proof.
  intros hs i j hi hj di dj Hij Hhi Hhj Hdi Hdj Hbetween.
  destruct (nth_error_decompose hs i hi Hhi) as (before & rest & -> & Hlen).
  subst i.
  assert (Hrest : nth_error rest (j - S (List.length before)) = Some hj).
  { rewrite nth_error_app2 in Hhj by lia.
    replace (j - List.length before)
      with (S (j - S (List.length before))) in Hhj by lia.
    exact Hhj. }
  destruct (nth_error_decompose rest _ hj Hrest) as (inside & after & -> & Hin).
  assert (Hj : j = List.length (before ++ hi :: inside)).
  { rewrite length_app. simpl. lia. }
  assert (Hinside : Forall (fun x => (level hi < level x)%Z) inside).
  { apply Forall_forall. intros x Hx.
    apply In_nth_error in Hx as (t & Ht).
    assert (t < List.length inside) by (apply nth_error_Some; congruence).
    apply (Hbetween (S (List.length before + t)) x); [lia | lia |].
    rewrite nth_error_app2 by lia.
    replace (S (List.length before + t) - List.length before) with (S t) by lia.
    simpl. rewrite nth_error_app1 by assumption. exact Ht. }
  rewrite depth_at in Hdi. injection Hdi as <-.
  replace (before ++ hi :: inside ++ hj :: after)
    with ((before ++ hi :: inside) ++ hj :: after) in Hdj
    by (rewrite <- app_assoc; reflexivity).
  rewrite Hj, depth_at in Hdj.
  replace (before ++ hi :: inside) with ((before ++ [hi]) ++ inside) in Hdj
    by (rewrite <- app_assoc; reflexivity).
  rewrite !levelStackAfter_app in Hdj.
  set (st := levelStackAfter [] before) in *.
  change (levelStackAfter st [hi])
    with ([] ++ level hi :: popLevels st (level hi)) in Hdj.
  destruct (levelStackAfter_keep (level hi) (popLevels st (level hi)) inside
              Hinside [] (Forall_nil _)) as (above & Hstack & Habove).
  rewrite Hstack in Hdj.
  assert (Hdj' : dj = List.length
                        (popLevels (above ++ level hi :: popLevels st (level hi))
                           (level hj))) by congruence.
  clear Hdj. subst dj. split.
  - intros Hlt.
    destruct (popLevels_keep (level hi) (popLevels st (level hi)) (level hj)
                above Habove Hlt) as (above' & -> & _).
    rewrite length_app. simpl. lia.
  - intros Hle. rewrite popLevels_through by assumption.
    apply length_popLevels.
Qed.

Lemma heading_scope_witness :
  (0 < 2
   /\ nth_error levels133 0 = Some (mkHeading "Title" 1 0)
   /\ nth_error levels133 2 = Some (mkHeading "Deep two" 3 2)
   /\ nth_error (computeNormalizedDepths levels133) 0 = Some 0
   /\ nth_error (computeNormalizedDepths levels133) 2 = Some 1)
  /\ 0 < 1.
Proof.
  split; [repeat split; lia|].
  refine (proj1 (heading_scope levels133 0 2 (mkHeading "Title" 1 0)
                   (mkHeading "Deep two" 3 2) 0 1
                   ltac:(lia) eq_refl eq_refl eq_refl eq_refl _) _).
  - intros k x Hk1 Hk2 Hx. assert (k = 1) by lia. subst k.
    simpl in Hx. injection Hx as <-. simpl. lia.
  - simpl. lia.
Defined.

(** ** Further properties of [getFilteredHeadings] *)

Section FilterFurther.
Variable isHeadingAllowed : string -> TableOfContentsOptions -> bool.

Local Abbreviation loop := (filterLoop isHeadingAllowed).
Local Abbreviation step := (filterStep isHeadingAllowed).
Local Abbreviation passes := (passesTests isHeadingAllowed).

(** With no exclusion active, a heading that the pattern accepts is pushed
    exactly when it passes the remaining tests, and starts no exclusion. *)
Lemma filterStep_allowed (o : TableOfContentsOptions) (m : JsNumber)
    (h : HeadingCache) :
  isHeadingAllowed (heading h) o = true ->
  step o m 0%Z h = (0%Z, passes o m h).
Proof.
  intros Hok. unfold filterStep, passesTests. rewrite Hok. simpl.
  assert (Hz : (if (level h <=? 0)%Z then 0%Z else 0%Z) = 0%Z)
    by now destruct (level h <=? 0)%Z.
  rewrite Hz.
  destruct (ltNumber (level h) m); simpl; [reflexivity|].
  destruct ((maxLevel o >? 0)%Z && (level h >? maxLevel o)%Z); simpl;
    [reflexivity|].
  now destruct (Nat.eqb (String.length (heading h)) 0).
Qed.

Lemma filterLoop_allowed (o : TableOfContentsOptions) (m : JsNumber)
    (hs : list HeadingCache) :
  Forall (fun h => isHeadingAllowed (heading h) o = true) hs ->
  loop o m 0%Z [] hs = (0%Z, filter (passes o m) hs).
Proof.
  intros Hall. induction Hall as [|h rest Hh _ IH]; simpl.
  - reflexivity.
  - rewrite (filterStep_allowed o m h Hh).
    rewrite filterLoop_acc, IH. simpl.
    now destruct (passes o m h).
Qed.

Lemma passesTests_allowed (o : TableOfContentsOptions) (m : JsNumber)
    (h : HeadingCache) :
  passes o m h = true -> isHeadingAllowed (heading h) o = true.
Proof.
  unfold passesTests. intros H.
  now destruct (isHeadingAllowed (heading h) o).
Qed.

(** The level floor is the only test that looks at the resolved minimum. *)
Lemma passesTests_floor (o : TableOfContentsOptions) (m m' : JsNumber)
    (h : HeadingCache) :
  passes o m h = true -> ltNumber (level h) m' = false -> passes o m' h = true.
Proof.
  unfold passesTests. intros H Hfloor. rewrite Hfloor.
  destruct (isHeadingAllowed (heading h) o); [|discriminate].
  destruct (ltNumber (level h) m); [discriminate|]. exact H.
Qed.

(** With an automatic minimum level no heading of the list lies under the
    floor. *)
Lemma resolveMinLevel_auto (o : TableOfContentsOptions) (hs : list HeadingCache)
    (h : HeadingCache) :
  (minLevel o <= 0)%Z -> In h hs ->
  ltNumber (level h) (resolveMinLevel o hs) = false.
Proof.
  intros Hauto Hin. unfold resolveMinLevel.
  replace (minLevel o >? 0)%Z with false
    by (symmetry; rewrite Z.gtb_ltb; apply Z.ltb_ge; lia).
  pose proof (mathMin_spec (map level hs)) as Hmin.
  destruct (mathMin (map level hs)) as [m|].
  - destruct Hmin as [_ Hall]. rewrite Forall_forall in Hall.
    simpl. apply Z.ltb_ge. apply Hall. now apply in_map.
  - apply map_eq_nil in Hmin. subst hs. contradiction.
Qed.

Lemma survivors_pass_again (hs : list HeadingCache) (o : TableOfContentsOptions) :
  let kept := survivingHeadings isHeadingAllowed hs o in
  Forall (fun h => passes o (resolveMinLevel o kept) h = true) kept.
Proof.
  intros kept.
  assert (Hpass : Forall (fun h => passes o (resolveMinLevel o hs) h = true) kept)
    by apply filterLoop_passes.
  rewrite Forall_forall in *. intros h Hin.
  apply passesTests_floor with (m := resolveMinLevel o hs); [now apply Hpass|].
  destruct (Z.leb_spec (minLevel o) 0) as [Hauto | Hfixed].
  - now apply resolveMinLevel_auto.
  - specialize (Hpass h Hin). unfold passesTests in Hpass.
    unfold resolveMinLevel in *.
    replace (minLevel o >? 0)%Z with true in *
      by (symmetry; apply Z.gtb_lt; lia).
    destruct (isHeadingAllowed (heading h) o); [|discriminate].
    now destruct (ltNumber (level h) (Finite (minLevel o))).
Qed.

Lemma survivingHeadings_idempotent (hs : list HeadingCache)
    (o : TableOfContentsOptions) :
  survivingHeadings isHeadingAllowed
    (survivingHeadings isHeadingAllowed hs o) o
  = survivingHeadings isHeadingAllowed hs o.
Proof.
  pose proof (survivors_pass_again hs o) as Hpass. simpl in Hpass.
  set (kept := survivingHeadings isHeadingAllowed hs o) in *.
  unfold survivingHeadings at 1. rewrite filterLoop_allowed.
  - simpl. apply forallb_filter_id. apply forallb_forall.
    rewrite Forall_forall in Hpass. exact Hpass.
  - apply Forall_impl with (2 := Hpass). intros h. apply passesTests_allowed.
Qed.

Lemma filterStep_alike (o : TableOfContentsOptions) (m : JsNumber)
    (u1 u2 : Z) (h : HeadingCache) :
  alike u1 u2 ->
  alike (fst (step o m u1 h)) (fst (step o m u2 h))
  /\ snd (step o m u1 h) = snd (step o m u2 h).
Proof.
  intros [-> | [H1 H2]]; [split; [now left | reflexivity]|].
  unfold filterStep.
  replace (u1 >? 0)%Z with false
    by (symmetry; rewrite Z.gtb_ltb; apply Z.ltb_ge; lia).
  replace (u2 >? 0)%Z with false
    by (symmetry; rewrite Z.gtb_ltb; apply Z.ltb_ge; lia).
  simpl.
  assert (Hu : alike (if (level h <=? u1)%Z then 0%Z else u1)
                     (if (level h <=? u2)%Z then 0%Z else u2)).
  { right. destruct (level h <=? u1)%Z, (level h <=? u2)%Z; lia. }
  destruct (isHeadingAllowed (heading h) o); simpl.
  - destruct (ltNumber (level h) m); simpl; [now split|].
    destruct ((maxLevel o >? 0)%Z && (level h >? maxLevel o)%Z); simpl;
      [now split|].
    now destruct (Nat.eqb (String.length (heading h)) 0).
  - split; [|reflexivity].
    destruct (truthy (exclude o)); [now left | exact Hu].
Qed.

Lemma filterLoop_alike (o : TableOfContentsOptions) (m : JsNumber)
    (hs : list HeadingCache) :
  forall u1 u2 acc,
    alike u1 u2 -> snd (loop o m u1 acc hs) = snd (loop o m u2 acc hs).
Proof.
  induction hs as [|h rest IH]; intros u1 u2 acc Halike; simpl.
  - reflexivity.
  - destruct (filterStep_alike o m u1 u2 h Halike) as [Hfst Hsnd].
    destruct (step o m u1 h) as [u1' p1], (step o m u2 h) as [u2' p2].
    simpl in Hfst, Hsnd. subst p2. now apply IH.
Qed.

End FilterFurther.

(** X6.  Filtering is idempotent: running the filter on the headings it kept
    keeps all of them, with the same depths. *)
Theorem filter_idempotent :
  forall (isHeadingAllowed : string -> TableOfContentsOptions -> bool)
         (headings : list HeadingCache) (options : TableOfContentsOptions),
    let filtered := getFilteredHeadings isHeadingAllowed headings options in
    getFilteredHeadings isHeadingAllowed (map fh_heading filtered) options
    = filtered.
Proof.
  intros isHeadingAllowed headings options filtered. unfold filtered.
  rewrite headings_getFilteredHeadings.
  unfold getFilteredHeadings at 1.
  rewrite survivingHeadings_idempotent. reflexivity.
Qed.

(** X7.  With an automatic minimum level, no maximum level and a pattern
    test that rejects none of the headings, the filter removes exactly the
    headings whose label is empty. *)
Theorem filter_without_bounds :
  forall (isHeadingAllowed : string -> TableOfContentsOptions -> bool)
         (headings : list HeadingCache) (options : TableOfContentsOptions),
    (minLevel options <= 0)%Z ->
    (maxLevel options <= 0)%Z ->
    Forall (fun h => isHeadingAllowed (heading h) options = true) headings ->
    map fh_heading (getFilteredHeadings isHeadingAllowed headings options)
    = filter (fun h => negb (String.eqb (heading h) "")) headings.
Proof.
  intros isHeadingAllowed headings options Hmin Hmax Hall.
  rewrite headings_getFilteredHeadings. unfold survivingHeadings.
  rewrite filterLoop_allowed by assumption. simpl.
  apply filter_ext_in. intros h Hin. unfold passesTests.
  rewrite Forall_forall in Hall. rewrite (Hall h Hin).
  rewrite (resolveMinLevel_auto options headings h Hmin Hin).
  replace (maxLevel options >? 0)%Z with false
    by (symmetry; rewrite Z.gtb_ltb; apply Z.ltb_ge; lia).
  simpl. now destruct (heading h).
Qed.

Lemma filter_without_bounds_witness :
  ((minLevel defaultOptions <= 0)%Z
   /\ (maxLevel defaultOptions <= 0)%Z
   /\ Forall (fun h => isHeadingAllowedSpec (heading h) defaultOptions = true)
        sampleABCD)
  /\ map fh_heading
       (getFilteredHeadings isHeadingAllowedSpec sampleABCD defaultOptions)
     = filter (fun h => negb (String.eqb (heading h) "")) sampleABCD.
Proof.
  assert (H : Forall (fun h => isHeadingAllowedSpec (heading h) defaultOptions = true)
                sampleABCD) by (repeat constructor).
  split; [repeat split; simpl; trivial; lia|].
  apply (filter_without_bounds isHeadingAllowedSpec sampleABCD defaultOptions);
    simpl; trivial; lia.
Defined.

(** X8.  A rejected heading whose level is 0 or negative hides nothing but
    itself: when no exclusion is active the headings after it are filtered as
    if the loop started afresh, under either kind of pattern. *)
Theorem rejected_nonpositive_level_starts_no_cascade :
  forall (isHeadingAllowed : string -> TableOfContentsOptions -> bool)
         (options : TableOfContentsOptions) (minLvl : JsNumber)
         (unallowedLevel : Z) (kept : list HeadingCache)
         (h : HeadingCache) (rest : list HeadingCache),
    (unallowedLevel <= 0)%Z ->
    (level h <= 0)%Z ->
    isHeadingAllowed (heading h) options = false ->
    snd (filterLoop isHeadingAllowed options minLvl unallowedLevel kept (h :: rest))
    = snd (filterLoop isHeadingAllowed options minLvl 0%Z kept rest).
Proof.
  intros isHeadingAllowed options minLvl u kept h rest Hu Hh Hfail.
  simpl.
  assert (Hstep :
    exists u', filterStep isHeadingAllowed options minLvl u h = (u', false)
               /\ (u' <= 0)%Z).
  { unfold filterStep. rewrite Hfail.
    replace (u >? 0)%Z with false
      by (symmetry; rewrite Z.gtb_ltb; apply Z.ltb_ge; lia).
    simpl. eexists. split; [reflexivity|].
    destruct (truthy (exclude options)); [lia|].
    destruct (level h <=? u)%Z; lia. }
  destruct Hstep as (u' & -> & Hu').
  apply filterLoop_alike. right. lia.
Qed.

Lemma rejected_nonpositive_level_starts_no_cascade_witness :
  ((0 <= 0)%Z /\ (level (mkHeading "B" 0 0) <= 0)%Z
   /\ isHeadingAllowedSpec (heading (mkHeading "B" 0 0)) excludeB = false)
  /\ snd (filterLoop isHeadingAllowedSpec excludeB (Finite 0) 0%Z []
            levelZeroSample)
     = snd (filterLoop isHeadingAllowedSpec excludeB (Finite 0) 0%Z []
              [mkHeading "C" 3 1]).
Proof.
  split; [repeat split; simpl; lia|].
  apply (rejected_nonpositive_level_starts_no_cascade isHeadingAllowedSpec
           excludeB (Finite 0) 0%Z [] (mkHeading "B" 0 0) [mkHeading "C" 3 1]);
    simpl; trivial; lia.
Defined.

(** ** Further properties of the markdown builders *)

Lemma append_empty_iff (a b : string) :
  String.append a b = EmptyString <-> a = EmptyString /\ b = EmptyString.
Proof.
  split.
  - destruct a; simpl; [now split | discriminate].
  - now intros [-> ->].
Qed.

Lemma length_positive_nonempty (s : string) :
  0 < String.length s -> s <> EmptyString.
Proof. destruct s; simpl; [lia | discriminate]. Qed.

Lemma listMarkdown_nonempty
    (isHeadingAllowed : string -> TableOfContentsOptions -> bool)
    (fmt : string -> TableOfContentsOptions -> string)
    (hs : list HeadingCache) (isOrdered : bool) (o : TableOfContentsOptions) :
  match getMarkdownListFromHeadings isHeadingAllowed fmt hs isOrdered o with
  | None => getFilteredHeadings isHeadingAllowed hs o = []
  | Some markdown =>
      markdown <> EmptyString /\ getFilteredHeadings isHeadingAllowed hs o <> []
  end.
Proof.
  unfold getMarkdownListFromHeadings.
  destruct (getFilteredHeadings isHeadingAllowed hs o) as [|item rest];
    [reflexivity|].
  cbn [map List.length Nat.ltb Nat.leb]. split; [|discriminate].
  apply length_positive_nonempty.
  pose proof (length_join_cons newline
                (listLine fmt (if isOrdered then "1." else "-") o item)
                (map (listLine fmt (if isOrdered then "1." else "-") o) rest)).
  pose proof (length_listLine fmt (if isOrdered then "1." else "-") o item).
  lia.
Qed.

(** X9.  For the two nested list styles the rendered markdown is the empty
    string exactly when no heading survives the filter and [hideWhenEmpty] is
    set: the option hides the block in that case and in no other. *)
Theorem hidden_exactly_when_empty :
  forall (isHeadingAllowed : string -> TableOfContentsOptions -> bool)
         (getFormattedMarkdownHeading : string -> TableOfContentsOptions -> string)
         (headings : list HeadingCache) (options : TableOfContentsOptions),
    style options <> inlineFirstLevel ->
    (getMarkdownFromHeadings isHeadingAllowed getFormattedMarkdownHeading
       headings options = EmptyString
     <-> getFilteredHeadings isHeadingAllowed headings options = []
         /\ hideWhenEmpty options = true).
Proof.
  intros isHeadingAllowed fmt headings options Hstyle.
  unfold getMarkdownFromHeadings.
  set (titleMarkdown := if Nat.ltb 0 (String.length (title options)) then _ else _).
  assert (Hlist : exists isOrdered,
    markdownHandlersByStyle isHeadingAllowed fmt (style options) headings options
    = getMarkdownListFromHeadings isHeadingAllowed fmt headings isOrdered options).
  { destruct (style options); [now exists false | now exists true | contradiction]. }
  destruct Hlist as (isOrdered & ->).
  pose proof (listMarkdown_nonempty isHeadingAllowed fmt headings isOrdered options)
    as Hbody.
  destruct (getMarkdownListFromHeadings isHeadingAllowed fmt headings isOrdered
              options) as [markdown|].
  - destruct Hbody as [Hne Hfiltered]. rewrite append_empty_iff. split.
    + intros [_ Hempty]. contradiction.
    + intros [Hnil _]. contradiction.
  - destruct (hideWhenEmpty options).
    + now split.
    + rewrite append_empty_iff. unfold noHeadingsNotice. split.
      * intros [_ Hnotice]. discriminate.
      * intros [_ Hhide]. discriminate.
Qed.

Lemma hidden_exactly_when_empty_witness :
  style defaultOptions <> inlineFirstLevel
  /\ (getMarkdownFromHeadings isHeadingAllowedSpec (fun text _ => text)
        [] defaultOptions = EmptyString
      <-> getFilteredHeadings isHeadingAllowedSpec [] defaultOptions = []
          /\ hideWhenEmpty defaultOptions = true).
Proof.
  assert (H : style defaultOptions <> inlineFirstLevel) by discriminate.
  split; [exact H|].
  exact (hidden_exactly_when_empty isHeadingAllowedSpec (fun text _ => text)
           [] defaultOptions H).
Defined.

(** X10.  With an automatic minimum level the inline style always finds
    something to show when the list is not empty and every heading has a
    non-empty label that the pattern test accepts: the headings at the lowest
    level present. *)
Theorem inline_auto_level_not_empty :
  forall (isHeadingAllowed : string -> TableOfContentsOptions -> bool)
         (getFormattedMarkdownHeading : string -> TableOfContentsOptions -> string)
         (headings : list HeadingCache) (options : TableOfContentsOptions),
    (minLevel options <= 0)%Z ->
    headings <> [] ->
    Forall (fun h => isHeadingAllowed (heading h) options = true
                     /\ heading h <> EmptyString) headings ->
    exists markdown,
      getMarkdownInlineFirstLevelFromHeadings isHeadingAllowed
        getFormattedMarkdownHeading headings options = Some markdown.
Proof.
  intros isHeadingAllowed fmt headings options Hauto Hne Hall.
  unfold getMarkdownInlineFirstLevelFromHeadings.
  set (minLvl := resolveMinLevel options headings).
  set (items := map _ _).
  assert (Hitems : items <> []).
  { assert (Hlow : exists h, In h headings /\ eqNumber (level h) minLvl = true).
    { unfold minLvl, resolveMinLevel.
      replace (minLevel options >? 0)%Z with false
        by (symmetry; rewrite Z.gtb_ltb; apply Z.ltb_ge; lia).
      pose proof (mathMin_spec (map level headings)) as Hmin.
      destruct (mathMin (map level headings)) as [m|].
      - destruct Hmin as [Hin _]. apply in_map_iff in Hin as (h & <- & Hin).
        exists h. split; [assumption | apply Z.eqb_refl].
      - apply map_eq_nil in Hmin. contradiction. }
    destruct Hlow as (h & Hin & Hlevel).
    rewrite Forall_forall in Hall. destruct (Hall h Hin) as [Hok Hlabel].
    assert (Hsel : In (fmt (heading h) options) items).
    { unfold items. apply (in_map (fun x => fmt (heading x) options)).
      repeat (apply filter_In; split); trivial.
      destruct (heading h); [contradiction | reflexivity]. }
    intros Hnil. rewrite Hnil in Hsel. contradiction. }
  destruct items as [|item rest]; [contradiction|].
  simpl. eauto.
Qed.

Lemma inline_auto_level_not_empty_witness :
  ((minLevel inlineOptions <= 0)%Z
   /\ sampleACflat <> []
   /\ Forall (fun h => isHeadingAllowedSpec (heading h) inlineOptions = true
                       /\ heading h <> EmptyString) sampleACflat)
  /\ exists markdown,
       getMarkdownInlineFirstLevelFromHeadings isHeadingAllowedSpec
         (fun text _ => text) sampleACflat inlineOptions = Some markdown.
Proof.
  assert (H1 : (minLevel inlineOptions <= 0)%Z) by (simpl; lia).
  assert (H2 : sampleACflat <> []) by discriminate.
  assert (H3 : Forall (fun h => isHeadingAllowedSpec (heading h) inlineOptions = true
                               /\ heading h <> EmptyString) sampleACflat)
    by (repeat constructor; discriminate).
  split; [now repeat split|].
  exact (inline_auto_level_not_empty isHeadingAllowedSpec (fun text _ => text)
           sampleACflat inlineOptions H1 H2 H3).
Defined.

(** ** Further properties of [escapeHtml] *)

Lemma escapeChar_cases (c : ascii) :
  (c = ampersand /\ escapeChar c = "&amp;")
  \/ (c = lessThan /\ escapeChar c = "&lt;")
  \/ (c = greaterThan /\ escapeChar c = "&gt;")
  \/ (c = doubleQuote /\ escapeChar c = "&quot;")
  \/ (special c = false /\ escapeChar c = String c EmptyString).
Proof.
  unfold escapeChar, special.
  destruct (Ascii.eqb c ampersand) eqn:H1;
    [apply Ascii.eqb_eq in H1; now left|].
  destruct (Ascii.eqb c lessThan) eqn:H2;
    [apply Ascii.eqb_eq in H2; right; now left|].
  destruct (Ascii.eqb c greaterThan) eqn:H3;
    [apply Ascii.eqb_eq in H3; right; right; now left|].
  destruct (Ascii.eqb c doubleQuote) eqn:H4;
    [apply Ascii.eqb_eq in H4; right; right; right; now left|].
  right; right; right; right. now split.
Qed.

Lemma special_cases (c : ascii) :
  special c = true ->
  c = ampersand \/ c = lessThan \/ c = greaterThan \/ c = doubleQuote.
Proof.
  intros H. destruct (escapeChar_cases c) as [[? _]|[[? _]|[[? _]|[[? _]|[Hc _]]]]];
    auto. congruence.
Qed.

Lemma length_escapeChar (c : ascii) :
  1 <= String.length (escapeChar c)
  /\ (special c = true -> 1 < String.length (escapeChar c)).
Proof.
  destruct (escapeChar_cases c) as [[-> ->]|[[-> ->]|[[-> ->]|[[-> ->]|[Hc ->]]]]];
    simpl; split; try lia; congruence.
Qed.

Lemma length_escapeEach (s : string) :
  String.length s <= String.length (escapeEach s)
  /\ (hasSpecial s = true -> String.length s < String.length (escapeEach s)).
Proof.
  induction s as [|c s [IHle IHlt]]; simpl.
  - split; [lia | discriminate].
  - rewrite length_append. destruct (length_escapeChar c) as [Hc Hsp].
    split; [lia|]. intros H. apply orb_prop in H as [H | H].
    + specialize (Hsp H). lia.
    + specialize (IHlt H). lia.
Qed.

Lemma escapeEach_plain (s : string) : hasSpecial s = false -> escapeEach s = s.
Proof.
  induction s as [|c s IH]; simpl; [reflexivity|].
  intros H. apply orb_false_elim in H as [Hc Hs].
  destruct (escapeChar_cases c) as [[-> _]|[[-> _]|[[-> _]|[[-> _]|[_ ->]]]]];
    try discriminate.
  simpl. now rewrite IH.
Qed.

(** X11.  [escapeHtml] returns its argument unchanged exactly when the text
    holds none of the four special characters, and it never shortens a text. *)
Theorem escapeHtml_fixes_plain_text :
  forall text,
    (escapeHtml text = text <-> hasSpecial text = false)
    /\ String.length text <= String.length (escapeHtml text).
Proof.
  intros text. rewrite escapeHtml_each.
  destruct (length_escapeEach text) as [Hle Hlt]. split; [split|exact Hle].
  - intros Heq. destruct (hasSpecial text); [|reflexivity].
    specialize (Hlt eq_refl). rewrite Heq in Hlt. lia.
  - apply escapeEach_plain.
Qed.

Lemma escapeEach_injective (a : string) :
  forall b, escapeEach a = escapeEach b -> a = b.
Proof.
  induction a as [|c1 a IH]; intros [|c2 b] H; simpl in H.
  - reflexivity.
  - destruct (escapeChar_cases c2)
      as [[_ E]|[[_ E]|[[_ E]|[[_ E]|[_ E]]]]]; rewrite E in H; discriminate.
  - destruct (escapeChar_cases c1)
      as [[_ E]|[[_ E]|[[_ E]|[[_ E]|[_ E]]]]]; rewrite E in H; discriminate.
  - destruct (escapeChar_cases c1)
      as [[-> E1]|[[-> E1]|[[-> E1]|[[-> E1]|[S1 E1]]]]];
    destruct (escapeChar_cases c2)
      as [[-> E2]|[[-> E2]|[[-> E2]|[[-> E2]|[S2 E2]]]]];
    rewrite ?E1, ?E2 in H; simpl in H;
      try discriminate;
      try (injection H as H; f_equal; now apply IH);
      try (injection H as -> H; discriminate);
      try (injection H as <- H; discriminate).
    injection H as -> H. f_equal. now apply IH.
Qed.

(** X12.  [escapeHtml] loses nothing: two texts with the same escaped form
    are the same text. *)
Theorem escapeHtml_injective :
  forall a b, escapeHtml a = escapeHtml b <-> a = b.
Proof.
  intros a b. split; [|now intros ->].
  rewrite !escapeHtml_each. apply escapeEach_injective.
Qed.

(** ** Further properties of [wikitextToHtml] *)

(** X13.  The pattern matcher is exact: it fails exactly on the texts that
    do not start with a well-shaped link; on a well-shaped link it returns the
    target, the display text and the text after the link; and a text reads as
    a link followed by a remainder in at most one way, so backtracking never
    changes what is found. *)
Theorem link_matcher_exact :
  (forall s, matchItems linkPattern [] s = None <-> ~ startsWithLink s)
  /\ (forall target display rest,
         wellShaped target display ->
         matchItems linkPattern [] (wikilink target display rest)
         = Some ([target; display], rest))
  /\ (forall target display rest target' display' rest',
         wellShaped target display -> wellShaped target' display' ->
         wikilink target display rest = wikilink target' display' rest' ->
         target = target' /\ display = display' /\ rest = rest').
Proof.
  split; [|split].
  - intros s. split; [|apply matchItems_None].
    intros Hnone (t & d & rest & Hshape & ->).
    rewrite matchItems_wikilink in Hnone by assumption. discriminate.
  - exact matchItems_wikilink.
  - intros t d rest t' d' rest' Hshape Hshape' Heq.
    pose proof (matchItems_wikilink t d rest Hshape) as H.
    rewrite Heq, matchItems_wikilink in H by assumption.
    injection H as -> -> ->. now repeat split.
Qed.

Lemma link_matcher_exact_witness :
  wellShaped "Intro" "The intro"
  /\ matchItems linkPattern [] (wikilink "Intro" "The intro" " and more")
     = Some (["Intro"; "The intro"], " and more").
Proof.
  assert (H : wellShaped "Intro" "The intro")
    by (repeat split; try reflexivity; discriminate).
  split; [exact H|].
  exact (proj1 (proj2 link_matcher_exact) "Intro" "The intro" " and more" H).
Defined.

Lemma length_anchorMarkup (a b : string) :
  String.length a + String.length b + 6 < String.length (anchorMarkup a b).
Proof.
  unfold anchorMarkup.
  repeat first [rewrite length_append | progress cbn [String.length String.append]].
  lia.
Qed.

Lemma not_containsLink_empty : ~ containsLink EmptyString.
Proof.
  intros (before & tail & Heq & t & d & rest & _ & ->).
  destruct before; discriminate.
Qed.

Lemma scanned_grows (segments : list Segment) :
  scanned segments ->
  String.length (sourceOf segments) <= String.length (markupOf segments)
  /\ (containsLink (sourceOf segments) ->
      String.length (sourceOf segments) < String.length (markupOf segments)).
Proof.
  induction segments as [|[c | t d] rest IH]; simpl.
  - intros _. split; [lia|]. intros H. now apply not_containsLink_empty in H.
  - intros [Hno Hrest]. destruct (IH Hrest) as [Hle Hlt]. split; [lia|].
    intros (before & tail & Heq & Hlink).
    destruct before as [|c' before].
    + simpl in Heq. subst tail. contradiction.
    + simpl in Heq. injection Heq as _ Heq.
      assert (containsLink (sourceOf rest)) by now exists before, tail.
      specialize (Hlt H). lia.
  - intros [Hshape Hrest]. destruct (IH Hrest) as [Hle _].
    assert (Hlen :
      String.length (wikilink t d (sourceOf rest))
      < String.length
          (String.append (anchorMarkup (escapeEach t) (escapeEach d))
             (markupOf rest))).
    { unfold wikilink.
      repeat first [rewrite length_append
                   | progress cbn [String.length String.append]].
      pose proof (length_anchorMarkup (escapeEach t) (escapeEach d)).
      pose proof (proj1 (length_escapeEach t)).
      pose proof (proj1 (length_escapeEach d)). lia. }
    split; [apply Nat.lt_le_incl; exact Hlen | intros _; exact Hlen].
Qed.

(** X14.  [wikitextToHtml] returns a label unchanged exactly when the label
    contains no two-part link, and it never shortens a label. *)
Theorem wikitextToHtml_fixes_exactly_linkless :
  forall text,
    (wikitextToHtml text = text <-> ~ containsLink text)
    /\ String.length text <= String.length (wikitextToHtml text).
Proof.
  intros text.
  destruct (segmentation (String.length text) text (le_n _))
    as (segments & Hsrc & Hscan).
  pose proof (wikitextToHtml_scanned segments Hscan) as Hrender.
  destruct (scanned_grows segments Hscan) as [Hle Hlt].
  rewrite Hsrc in *. split; [split|].
  - intros Heq Hlink. specialize (Hlt Hlink).
    rewrite <- Hrender, Heq in Hlt. lia.
  - apply wikitextToHtml_identity.
  - now rewrite Hrender.
Qed.

(** ** Further properties of [buildTree] *)

Lemma popStack_below (d : nat) (entries : list StackEntry) :
  entriesDescending entries ->
  Forall (fun e => se_depth e < d) (popStack entries d).
Proof.
  induction entries as [|e below IH]; intros Hdesc; simpl.
  - constructor.
  - destruct Hdesc as [Hbelow Hdesc].
    destruct (Nat.leb_spec d (se_depth e)) as [Hle | Hgt]; [now apply IH|].
    constructor; [assumption|].
    apply Forall_impl with (2 := Hbelow). intros x Hx. lia.
Qed.

Lemma popStack_descending (d : nat) (entries : list StackEntry) :
  entriesDescending entries -> entriesDescending (popStack entries d).
Proof.
  induction entries as [|e below IH]; intros Hdesc; simpl; trivial.
  destruct (Nat.leb d (se_depth e)); [apply IH; exact (proj2 Hdesc) | exact Hdesc].
Qed.

Lemma length_popStack (d : nat) (entries : list StackEntry) :
  List.length (popStack entries d) <= List.length entries.
Proof.
  induction entries as [|e below IH]; simpl; [lia|].
  destruct (Nat.leb d (se_depth e)); simpl; lia.
Qed.

Lemma entriesDescending_length (d : nat) (entries : list StackEntry) :
  entriesDescending entries ->
  Forall (fun e => se_depth e < d) entries ->
  List.length entries <= d.
Proof.
  revert d. induction entries as [|e below IH]; intros d Hdesc Hall; simpl.
  - lia.
  - destruct Hdesc as [Hbelow Hdesc]. inversion Hall; subst.
    specialize (IH (se_depth e) Hdesc Hbelow). lia.
Qed.

Section BuildTreeFurther.
Variable getFormattedMarkdownHeading : string -> TableOfContentsOptions -> string.
Variable options : TableOfContentsOptions.

Local Abbreviation labelOf :=
  (fun item : FilteredHeading =>
     getFormattedMarkdownHeading (heading (fh_heading item)) options).
Local Abbreviation bstep := (buildStep getFormattedMarkdownHeading options).

Lemma Built_run_any (items : list FilteredHeading) :
  forall st processed,
    Built st processed ->
    entriesDescending (stack st) ->
    exists trace,
      Built (fold_left bstep items st) (processed ++ trace)
      /\ Forall2 (fun item p => fst p = labelOf item /\ snd p <= depth item)
           items trace
      /\ risesByOne (List.length (stack st)) (map snd trace).
Proof.
  induction items as [|item rest IH]; intros st processed Hbuilt Hdesc; simpl.
  - exists []. rewrite app_nil_r. repeat split; [assumption | constructor].
  - pose proof (Built_step getFormattedMarkdownHeading options st processed item
                  Hbuilt) as Hstep.
    set (n := List.length (popStack (stack st) (depth item))) in *.
    assert (Hn : n <= depth item).
    { apply entriesDescending_length;
        [now apply popStack_descending | now apply popStack_below]. }
    destruct (IH _ _ Hstep) as (trace & Hbuilt' & Hall & Hrise).
    { rewrite stack_buildStep. split;
        [now apply popStack_below | now apply popStack_descending]. }
    exists ((labelOf item, n) :: trace). repeat split.
    + now rewrite <- app_assoc in Hbuilt'.
    + constructor; [now split | assumption].
    + apply length_popStack.
    + rewrite stack_buildStep in Hrise. exact Hrise.
Qed.

End BuildTreeFurther.

(** X15.  [buildTree] is robust against depth sequences with gaps: whatever
    the depths, it returns a forest with one node per element, in order, in
    which no node is nested deeper than its depth says and the nesting never
    rises by more than one from a node to the next. *)
Theorem buildTree_closes_gaps :
  forall (getFormattedMarkdownHeading : string -> TableOfContentsOptions -> string)
         (options : TableOfContentsOptions) (flat : list FilteredHeading),
    exists forest,
      buildTree getFormattedMarkdownHeading options flat = Some forest
      /\ Forall2
           (fun item p =>
              fst p = getFormattedMarkdownHeading (heading (fh_heading item)) options
              /\ snd p <= depth item)
           flat (flattenForest 0 forest)
      /\ risesByOne 0 (map snd (flattenForest 0 forest)).
Proof.
  intros fmt options flat.
  destruct (Built_run_any fmt options flat initialState [] Built_initial I)
    as (trace & Hbuilt & Hall & Hrise).
  destruct (Built_read _ _ Hbuilt) as (forest & Hread & Hflat).
  exists forest. simpl in Hflat. subst trace. now repeat split.
Qed.

Example buildTree_gap_sample :
  buildTree (fun text _ => text) defaultOptions
    [mkFiltered hA 2; mkFiltered hB 5; mkFiltered hC 1; mkFiltered hD 3]
  = Some [Node "A" [Node "B" []]; Node "C" [Node "D" []]].
Proof. reflexivity. Qed.

(** ** Further properties of [renderNodes] *)

Lemma TreeNode_forall_ind (P : TreeNode -> Prop) :
  (forall text children, Forall P children -> P (Node text children)) ->
  forall n, P n.
Proof.
  intros Hnode. fix IH 1. intros [text children]. apply Hnode.
  induction children as [|c cs IHcs]; constructor; [apply IH | exact IHcs].
Qed.

Lemma countTag_Element (tag t : string) (attrs : list (string * string))
    (content : list Dom) :
  countTag tag (Element t attrs content)
  = (if String.eqb t tag then 1 else 0) + list_sum (map (countTag tag) content).
Proof. reflexivity. Qed.

Lemma countTag_leaf (tag text : string) (isOrdered : bool) :
  countTag tag (renderNode isOrdered (Node text []))
  = if String.eqb "li" tag then 1 else 0.
Proof.
  cbn [renderNode]. rewrite countTag_Element.
  cbn [map list_sum fold_right countTag]. lia.
Qed.

Lemma countTag_parent (tag text : string) (isOrdered : bool)
    (c : TreeNode) (cs : list TreeNode) :
  countTag tag (renderNode isOrdered (Node text (c :: cs)))
  = (if String.eqb "li" tag then 1 else 0)
    + (if String.eqb "details" tag then 1 else 0)
    + (if String.eqb "summary" tag then 1 else 0)
    + (if String.eqb (listTag isOrdered) tag then 1 else 0)
    + list_sum (map (countTag tag) (map (renderNode isOrdered) (c :: cs))).
Proof.
  cbn [renderNode]. set (kids := map (renderNode isOrdered) (c :: cs)).
  rewrite !countTag_Element. cbn [map list_sum fold_right].
  rewrite !countTag_Element. cbn [map list_sum fold_right countTag]. lia.
Qed.

Ltac eval_tags :=
  repeat match goal with
         | |- context [String.eqb ?a ?b] =>
             let v := eval vm_compute in (String.eqb a b) in
             change (String.eqb a b) with v
         end.

Lemma sum_li_from_nodes (isOrdered : bool) (cs : list TreeNode) :
  Forall (fun n => forall k,
            countTag "li" (renderNode isOrdered n)
            = List.length (flattenNode k n)) cs ->
  forall k,
    list_sum (map (countTag "li") (map (renderNode isOrdered) cs))
    = List.length (flat_map (flattenNode k) cs).
Proof.
  intros Hall k. induction Hall as [|c cs Hc _ IHcs]; simpl; [reflexivity|].
  now rewrite length_app, (Hc k), IHcs.
Qed.

Lemma countTag_li_renderNode (isOrdered : bool) :
  forall n k,
    countTag "li" (renderNode isOrdered n) = List.length (flattenNode k n).
Proof.
  induction n as [text children IH] using TreeNode_forall_ind. intros k.
  destruct children as [|c cs].
  - rewrite countTag_leaf. reflexivity.
  - rewrite countTag_parent, (sum_li_from_nodes isOrdered _ IH (S k)).
    destruct isOrdered; cbn [listTag]; eval_tags; reflexivity.
Qed.

Lemma sum_other_from_nodes (isOrdered : bool) (cs : list TreeNode) :
  Forall (fun n =>
            countTag (listTag (negb isOrdered)) (renderNode isOrdered n) = 0) cs ->
  list_sum (map (countTag (listTag (negb isOrdered)))
              (map (renderNode isOrdered) cs)) = 0.
Proof.
  intros Hall. induction Hall as [|c cs Hc _ IHcs]; simpl; [reflexivity|].
  now rewrite Hc, IHcs.
Qed.

Lemma countTag_other_list_renderNode (isOrdered : bool) :
  forall n, countTag (listTag (negb isOrdered)) (renderNode isOrdered n) = 0.
Proof.
  induction n as [text children IH] using TreeNode_forall_ind.
  destruct children as [|c cs].
  - rewrite countTag_leaf.
    destruct isOrdered; cbn [listTag negb]; eval_tags; reflexivity.
  - rewrite countTag_parent, (sum_other_from_nodes isOrdered _ IH).
    destruct isOrdered; cbn [listTag negb]; eval_tags; reflexivity.
Qed.

Lemma flattenNode_nesting (n : TreeNode) :
  forall k, Forall (fun p => k <= snd p) (flattenNode k n).
Proof.
  induction n as [text children IH] using TreeNode_forall_ind. intros k.
  simpl. constructor; [simpl; lia|].
  induction IH as [|c cs Hc _ IHcs]; simpl; [constructor|].
  apply Forall_app. split; [|exact IHcs].
  apply Forall_impl with (2 := Hc (S k)). intros p Hp. lia.
Qed.

Lemma countRises_cons (a : nat) (l : list nat) :
  countRises (a :: l)
  = match l with
    | b :: _ => if Nat.ltb a b then 1 else 0
    | [] => 0
    end + countRises l.
Proof. destruct l; reflexivity. Qed.

(** Joining a run that stays at or above [b] to a run that starts at [b]
    adds no rise. *)
Lemma countRises_app (b : nat) (l1 l2 : list nat) :
  Forall (fun x => b <= x) l1 ->
  countRises (l1 ++ b :: l2) = countRises l1 + countRises (b :: l2).
Proof.
  intros Hall. induction Hall as [|a l1 Ha _ IH]; [reflexivity|].
  change ((a :: l1) ++ b :: l2) with (a :: (l1 ++ b :: l2)).
  rewrite (countRises_cons a (l1 ++ b :: l2)), (countRises_cons a l1), IH.
  destruct l1 as [|a' l1]; cbn [app]; [|lia].
  replace (Nat.ltb a b) with false by (symmetry; apply Nat.ltb_ge; lia).
  lia.
Qed.

Lemma sum_details_from_nodes (isOrdered : bool) (cs : list TreeNode) :
  Forall (fun n => forall k,
            countTag "details" (renderNode isOrdered n)
            = countRises (map snd (flattenNode k n))) cs ->
  forall k,
    list_sum (map (countTag "details") (map (renderNode isOrdered) cs))
    = countRises (map snd (flat_map (flattenNode k) cs)).
Proof.
  intros Hall k. induction Hall as [|c cs Hc _ IHcs]; [reflexivity|].
  cbn [map list_sum fold_right flat_map].
  fold (list_sum (map (countTag "details") (map (renderNode isOrdered) cs))).
  rewrite (Hc k), IHcs, map_app.
  destruct cs as [|[text' kids'] cs'].
  - simpl. now rewrite app_nil_r, Nat.add_0_r.
  - cbn [flat_map flattenNode map snd app].
    rewrite countRises_app; [reflexivity|].
    apply Forall_map. apply flattenNode_nesting.
Qed.

Lemma countTag_details_renderNode (isOrdered : bool) :
  forall n k,
    countTag "details" (renderNode isOrdered n)
    = countRises (map snd (flattenNode k n)).
Proof.
  induction n as [text children IH] using TreeNode_forall_ind. intros k.
  destruct children as [|[text' kids'] cs].
  - rewrite countTag_leaf. reflexivity.
  - rewrite countTag_parent, (sum_details_from_nodes isOrdered _ IH (S k)).
    cbn [flattenNode map snd]. rewrite countRises_cons.
    cbn [flat_map flattenNode map snd app].
    replace (Nat.ltb k (S k)) with true by (symmetry; apply Nat.ltb_lt; lia).
    destruct isOrdered; cbn [listTag]; eval_tags; reflexivity.
Qed.

Lemma countTag_summary_renderNode (isOrdered : bool) :
  forall n,
    countTag "summary" (renderNode isOrdered n)
    = countTag "details" (renderNode isOrdered n).
Proof.
  induction n as [text children IH] using TreeNode_forall_ind.
  assert (Hsum :
    list_sum (map (countTag "summary") (map (renderNode isOrdered) children))
    = list_sum (map (countTag "details") (map (renderNode isOrdered) children))).
  { induction IH as [|c cs Hc _ IHcs]; [reflexivity|].
    cbn [map list_sum fold_right].
    fold (list_sum (map (countTag "summary") (map (renderNode isOrdered) cs))).
    fold (list_sum (map (countTag "details") (map (renderNode isOrdered) cs))).
    now rewrite Hc, IHcs. }
  destruct children as [|c cs].
  - rewrite !countTag_leaf. reflexivity.
  - rewrite !countTag_parent, Hsum.
    destruct isOrdered; cbn [listTag]; eval_tags; reflexivity.
Qed.

Lemma sum_summary_forest (isOrdered : bool) (forest : list TreeNode) :
  list_sum (map (countTag "summary") (map (renderNode isOrdered) forest))
  = list_sum (map (countTag "details") (map (renderNode isOrdered) forest)).
Proof.
  induction forest as [|n rest IH]; [reflexivity|].
  cbn [map list_sum fold_right].
  fold (list_sum (map (countTag "summary") (map (renderNode isOrdered) rest))).
  fold (list_sum (map (countTag "details") (map (renderNode isOrdered) rest))).
  now rewrite countTag_summary_renderNode, IH.
Qed.

Lemma all_nodes {P : TreeNode -> Prop} (H : forall n, P n) (l : list TreeNode) :
  Forall P l.
Proof. apply Forall_forall. intros n _. apply H. Qed.

(** X16.  The foldable list of a filtered sequence: rendering always
    succeeds, with one list item per filtered heading, a collapsible section
    (with its one summary) for exactly the headings that are directly
    followed by a deeper one, and no list container of the other kind. *)
Theorem foldable_list_shape :
  forall (isHeadingAllowed : string -> TableOfContentsOptions -> bool)
         (getFormattedMarkdownHeading : string -> TableOfContentsOptions -> string)
         (headings : list HeadingCache) (options : TableOfContentsOptions)
         (isOrdered : bool),
    let filtered := getFilteredHeadings isHeadingAllowed headings options in
    exists dom,
      renderFoldableList getFormattedMarkdownHeading options filtered isOrdered
      = Some dom
      /\ countTag "li" dom = List.length filtered
      /\ countTag "details" dom = countRises (map depth filtered)
      /\ countTag "summary" dom = countTag "details" dom
      /\ countTag (listTag (negb isOrdered)) dom = 0.
Proof.
  intros isHeadingAllowed fmt headings options isOrdered filtered.
  destruct (buildTree_risesByOne fmt options filtered) as (forest & Hbuild & Hflat).
  { unfold filtered. rewrite depths_getFilteredHeadings.
    exact (risesByOne_depthsLoop _ []). }
  unfold renderFoldableList. rewrite Hbuild.
  exists (renderNodes isOrdered forest). split; [reflexivity|].
  assert (Hli : countTag "li" (renderNodes isOrdered forest)
                = List.length filtered).
  { unfold renderNodes. rewrite countTag_Element.
    rewrite (sum_li_from_nodes isOrdered forest
               (all_nodes (countTag_li_renderNode isOrdered) forest) 0).
    fold (flattenForest 0 forest). rewrite Hflat, length_map.
    destruct isOrdered; cbn [listTag]; eval_tags; reflexivity. }
  assert (Hdetails : countTag "details" (renderNodes isOrdered forest)
                     = countRises (map depth filtered)).
  { unfold renderNodes. rewrite countTag_Element.
    rewrite (sum_details_from_nodes isOrdered forest
               (all_nodes (countTag_details_renderNode isOrdered) forest) 0).
    fold (flattenForest 0 forest). rewrite Hflat, map_map. cbn [snd].
    destruct isOrdered; cbn [listTag]; eval_tags; reflexivity. }
  repeat split; trivial.
  - unfold renderNodes. rewrite !countTag_Element.
    rewrite (sum_summary_forest isOrdered forest).
    destruct isOrdered; cbn [listTag]; eval_tags; reflexivity.
  - unfold renderNodes. rewrite countTag_Element.
    rewrite (sum_other_from_nodes isOrdered forest
               (all_nodes (countTag_other_list_renderNode isOrdered) forest)).
    destruct isOrdered; cbn [listTag negb]; eval_tags; reflexivity.
Qed.

Lemma rawMarkups_from_nodes (isOrdered : bool) (cs : list TreeNode) :
  Forall (fun n => forall k,
            rawMarkups (renderNode isOrdered n)
            = map (fun p => wikitextToHtml (fst p)) (flattenNode k n)) cs ->
  forall k,
    flat_map rawMarkups (map (renderNode isOrdered) cs)
    = map (fun p => wikitextToHtml (fst p)) (flat_map (flattenNode k) cs).
Proof.
  intros Hall k. induction Hall as [|c cs Hc _ IHcs]; simpl; [reflexivity|].
  now rewrite map_app, (Hc k), IHcs.
Qed.

Lemma rawMarkups_renderNode (isOrdered : bool) :
  forall n k,
    rawMarkups (renderNode isOrdered n)
    = map (fun p => wikitextToHtml (fst p)) (flattenNode k n).
Proof.
  induction n as [text children IH] using TreeNode_forall_ind. intros k.
  destruct children as [|c cs].
  - reflexivity.
  - cbn [renderNode]. set (kids := map (renderNode isOrdered) (c :: cs)).
    cbn [rawMarkups flat_map app]. unfold kids.
    rewrite (rawMarkups_from_nodes isOrdered _ IH (S k)), !app_nil_r.
    reflexivity.
Qed.

(** X17.  In the foldable list every filtered heading contributes exactly
    one piece of raw markup, the translation of its formatted label, and the
    pieces stand in the order of the headings. *)
Theorem foldable_list_labels :
  forall (isHeadingAllowed : string -> TableOfContentsOptions -> bool)
         (getFormattedMarkdownHeading : string -> TableOfContentsOptions -> string)
         (headings : list HeadingCache) (options : TableOfContentsOptions)
         (isOrdered : bool),
    let filtered := getFilteredHeadings isHeadingAllowed headings options in
    exists dom,
      renderFoldableList getFormattedMarkdownHeading options filtered isOrdered
      = Some dom
      /\ rawMarkups dom
         = map (fun item =>
                  wikitextToHtml
                    (getFormattedMarkdownHeading (heading (fh_heading item))
                       options))
             filtered.
Proof.
  intros isHeadingAllowed fmt headings options isOrdered filtered.
  destruct (buildTree_risesByOne fmt options filtered) as (forest & Hbuild & Hflat).
  { unfold filtered. rewrite depths_getFilteredHeadings.
    exact (risesByOne_depthsLoop _ []). }
  unfold renderFoldableList. rewrite Hbuild.
  exists (renderNodes isOrdered forest). split; [reflexivity|].
  unfold renderNodes. cbn [rawMarkups].
  rewrite (rawMarkups_from_nodes isOrdered forest
             (all_nodes (rawMarkups_renderNode isOrdered) forest) 0).
  fold (flattenForest 0 forest). rewrite Hflat, map_map. reflexivity.
Qed.
